(** * Hollow Bridge relay: session-scoped pub/sub core of [src/relay/server.js]

    The development embeds the Socket.IO part of the relay (the [sessions]
    map, [getSession], and the three handlers registered under
    [io.on("connection")]) as pure state-passing functions, and proves the
    relay properties over every run of the server. *)

From Stdlib Require Import ZArith List String Ascii.
From Stdlib Require Import Floats.SpecFloat.
From stdpp Require Import gmap list fin_maps strings.

Open Scope Z_scope.
Set Warnings "-register-all".

(** ** JavaScript data *)

(** A JavaScript string is a sequence of UTF-16 code units. *)
Abbreviation jsstring := (list N).

Module Js.

(** Code units of an ASCII literal. *)
Fixpoint lit (s : string) : jsstring :=
  match s with
  | EmptyString => []
  | String a s' => N_of_ascii a :: lit s'
  end.

(** The values a Socket.IO client can deliver as an event argument:
    JSON data, plus [undefined] for an argument that is absent. *)
Inductive value :=
| JUndefined
| JNull
| JBool (b : bool)
| JNum (x : spec_float)
| JStr (s : jsstring)
| JArr (items : list value)
| JObj (fields : list (jsstring * value)).

(** [typeof v] *)
Definition typeof (v : value) : jsstring :=
  match v with
  | JUndefined => lit "undefined"
  | JNull => lit "object"
  | JBool _ => lit "boolean"
  | JNum _ => lit "number"
  | JStr _ => lit "string"
  | JArr _ => lit "object"
  | JObj _ => lit "object"
  end.

(** ToBoolean: [undefined], [null], [false], [+0], [-0], [NaN] and the
    empty string are falsy, everything else is truthy. *)
Definition truthy (v : value) : bool :=
  match v with
  | JUndefined => false
  | JNull => false
  | JBool b => b
  | JNum (S754_zero _) => false
  | JNum S754_nan => false
  | JNum _ => true
  | JStr [] => false
  | JStr _ => true
  | JArr _ => true
  | JObj _ => true
  end.

(** [a || b] *)
Definition or (a b : value) : value := if truthy a then a else b.

Fixpoint assoc (k : jsstring) (fields : list (jsstring * value)) : value :=
  match fields with
  | [] => JUndefined
  | (k', v) :: rest => if decide (k' = k) then v else assoc k rest
  end.

(** [v.k] for the two keys the relay reads, [type] and [data]: an own
    property of a plain object (whose fields carry distinct keys); neither
    arrays nor the built-in prototypes define them, so every other value
    answers [undefined]. *)
Definition get (v : value) (k : jsstring) : value :=
  match v with
  | JObj fields => assoc k fields
  | _ => JUndefined
  end.

(** [v === "..."] against a string literal. *)
Definition strict_eq_str (v : value) (s : jsstring) : bool :=
  match v with
  | JStr s' => bool_decide (s' = s)
  | _ => false
  end.

(** WhiteSpace and LineTerminator code points of ECMAScript, the ones
    [String.prototype.trim] strips. *)
Definition is_white_space (c : N) : bool :=
  ((c =? 9) || (c =? 10) || (c =? 11) || (c =? 12) || (c =? 13)
   || (c =? 32) || (c =? 160) || (c =? 5760)
   || ((8192 <=? c) && (c <=? 8202))
   || (c =? 8232) || (c =? 8233) || (c =? 8239) || (c =? 8287)
   || (c =? 12288) || (c =? 65279))%N.

Fixpoint trim_start (s : jsstring) : jsstring :=
  match s with
  | [] => []
  | c :: s' => if is_white_space c then trim_start s' else s
  end.

Definition trim_end (s : jsstring) : jsstring := rev (trim_start (rev s)).

(** [s.trim()] *)
Definition trim (s : jsstring) : jsstring := trim_end (trim_start s).

(** [String(x || "")] for a query parameter [x], which is a string or
    [undefined]. *)
Definition String_or_empty (x : option jsstring) : jsstring :=
  match x with
  | Some (c :: s) => c :: s
  | Some [] => []
  | None => []
  end.

(** The number [n] as a double, for small non-negative integers. *)
Definition num (n : positive) : value := JNum (S754_finite false n 0).

(** *** [JSON.stringify] on strings *)

(** One lower-case hexadecimal digit. *)
Definition hex_digit (n : N) : N :=
  if (n <? 10)%N then (48 + n)%N else (87 + n)%N.

(** The escape [\uXXXX] of a code unit. *)
Definition unicode_escape (c : N) : jsstring :=
  [92; 117; hex_digit ((c / 4096) mod 16); hex_digit ((c / 256) mod 16);
   hex_digit ((c / 16) mod 16); hex_digit (c mod 16)]%N.

Definition is_high_surrogate (c : N) : bool :=
  ((55296 <=? c) && (c <=? 56319))%N.

Definition is_low_surrogate (c : N) : bool :=
  ((56320 <=? c) && (c <=? 57343))%N.

(** How QuoteJSONString writes one code point that is not part of a
    surrogate pair: the short escapes, [\uXXXX] for the other control
    characters and for lone surrogates, everything else as it is. *)
Definition quote_unit (c : N) : jsstring :=
  (if c =? 8 then [92; 98]
   else if c =? 9 then [92; 116]
   else if c =? 10 then [92; 110]
   else if c =? 12 then [92; 102]
   else if c =? 13 then [92; 114]
   else if c =? 34 then [92; 34]
   else if c =? 92 then [92; 92]
   else if (c <? 32) || is_high_surrogate c || is_low_surrogate c
        then unicode_escape c
   else [c])%N.

(** The characters between the quotes; a high surrogate followed by a
    low one is a single code point and is copied. *)
Fixpoint quote_units (s : jsstring) : jsstring :=
  match s with
  | [] => []
  | c :: s' =>
      match s' with
      | d :: s'' =>
          if is_high_surrogate c && is_low_surrogate d
          then c :: d :: quote_units s''
          else quote_unit c ++ quote_units s'
      | [] => quote_unit c
      end
  end.

(** [JSON.stringify(s)] for a string [s]. *)
Definition JSON_stringify (s : jsstring) : jsstring :=
  [34%N] ++ quote_units s ++ [34%N].

(** *** String methods used by the HTTP routes *)

(** [s.replace(/-/g, "")] *)
Definition remove_dashes (s : jsstring) : jsstring :=
  filter (λ c, c ≠ 45%N) s.

(** [s.slice(0, n)] for a non-negative [n]. *)
Definition slice0 (n : nat) (s : jsstring) : jsstring := take n s.

End Js.

Import Js.
Arguments lit : simpl never.

(** ** Relay state *)

Abbreviation conn_id := nat.
Abbreviation addr := nat.

(** The object [{ lastState, publishers, viewers }] held in [sessions].
    The counters are integers far below 2^53, where double arithmetic is
    exact, so they live in [Z]. *)
Record session := Session {
  lastState : value;
  publishers : Z;
  viewers : Z
}.

(** [socket.handshake.query]: the two parameters the relay destructures. *)
Record query := Query {
  sessionId : option jsstring;
  role : option jsstring
}.

(** The variables the handlers of one socket close over: [sid], [r] and
    the session object [s] obtained at connect time. *)
Record closure := Closure {
  cl_sid : jsstring;
  cl_r : jsstring;
  cl_s : addr
}.

(** What the relay hands to the transport.  Every emission uses the
    event name [hb:event]. *)
Inductive emission :=
| Direct (to : conn_id) (payload : value)
    (* socket.emit("hb:event", payload) *)
| Broadcast (room : jsstring) (members : gset conn_id) (payload : value)
    (* io.to(room).emit("hb:event", payload), with the room's members *)
| ForceClose (c : conn_id).
    (* socket.disconnect(true) *)

(** The server: the [sessions] map (keys to object references), the
    objects themselves, the sockets with registered handlers, the
    transport's rooms, and the emissions so far in order. *)
Record relay := Relay {
  sessions : gmap jsstring addr;
  heap : gmap addr session;
  next_addr : addr;
  conns : gmap conn_id closure;
  rooms : gmap jsstring (gset conn_id);
  next_id : conn_id;
  log : list emission
}.

Definition init : relay :=
  Relay ∅ ∅ 0%nat ∅ ∅ 0%nat [].

(** *** Field updates *)

Definition with_sessions (f : gmap jsstring addr → gmap jsstring addr)
    (σ : relay) : relay :=
  Relay (f (sessions σ)) (heap σ) (next_addr σ) (conns σ) (rooms σ)
        (next_id σ) (log σ).

Definition with_heap (f : gmap addr session → gmap addr session)
    (σ : relay) : relay :=
  Relay (sessions σ) (f (heap σ)) (next_addr σ) (conns σ) (rooms σ)
        (next_id σ) (log σ).

Definition with_next_addr (f : addr → addr) (σ : relay) : relay :=
  Relay (sessions σ) (heap σ) (f (next_addr σ)) (conns σ) (rooms σ)
        (next_id σ) (log σ).

Definition with_conns (f : gmap conn_id closure → gmap conn_id closure)
    (σ : relay) : relay :=
  Relay (sessions σ) (heap σ) (next_addr σ) (f (conns σ)) (rooms σ)
        (next_id σ) (log σ).

Definition with_rooms
    (f : gmap jsstring (gset conn_id) → gmap jsstring (gset conn_id))
    (σ : relay) : relay :=
  Relay (sessions σ) (heap σ) (next_addr σ) (conns σ) (f (rooms σ))
        (next_id σ) (log σ).

Definition with_next_id (f : conn_id → conn_id) (σ : relay) : relay :=
  Relay (sessions σ) (heap σ) (next_addr σ) (conns σ) (rooms σ)
        (f (next_id σ)) (log σ).

(** Hands one emission to the transport. *)
Definition emit (e : emission) (σ : relay) : relay :=
  Relay (sessions σ) (heap σ) (next_addr σ) (conns σ) (rooms σ)
        (next_id σ) (log σ ++ [e]).

(** *** Session objects *)

Definition blank : session := Session JUndefined 0 0.

(** Reads the object behind a reference. *)
Definition deref (σ : relay) (a : addr) : session :=
  default blank (heap σ !! a).

(** Assigns to fields of the object behind a reference. *)
Definition update (a : addr) (f : session → session) (σ : relay) : relay :=
  with_heap (alter f a) σ.

Definition set_lastState (v : value) (o : session) : session :=
  Session v (publishers o) (viewers o).

Definition set_publishers (n : Z) (o : session) : session :=
  Session (lastState o) n (viewers o).

Definition set_viewers (n : Z) (o : session) : session :=
  Session (lastState o) (publishers o) n.

(** [getSession(sessionId)]: the object stored under the key, created
    with [{ lastState: null, publishers: 0, viewers: 0 }] when the key is
    new. *)
Definition getSession (sessionId : jsstring) (σ : relay) : addr * relay :=
  match sessions σ !! sessionId with
  | Some a => (a, σ)
  | None =>
      let a := next_addr σ in
      (a, with_sessions (insert sessionId a)
            (with_heap (insert a (Session JNull 0 0))
               (with_next_addr S σ)))
  end.

(** *** Transport rooms *)

(** The sockets [io.to(room)] reaches. *)
Definition members (room : jsstring) (σ : relay) : gset conn_id :=
  default ∅ (rooms σ !! room).

(** [socket.join(room)] *)
Definition join (socket : conn_id) (room : jsstring) (σ : relay) : relay :=
  with_rooms (insert room ({[socket]} ∪ members room σ)) σ.

(** A closing socket leaves every room. *)
Definition leave_all (socket : conn_id) (σ : relay) : relay :=
  with_rooms (fmap (λ m, m ∖ {[socket]})) σ.

(** *** Handlers *)

(** The payload [{ type: "state", data: v }]. *)
Definition state_event (v : value) : value :=
  JObj [(lit "type", JStr (lit "state")); (lit "data", v)].

(** [io.on("connection", (socket) => ...)]: the new socket gets the next
    identifier; [q] is [socket.handshake.query]. *)
Definition on_connection (q : option query) (σ : relay) : relay :=
  let socket := next_id σ in
  let σ := with_next_id S σ in
  let sid := trim (String_or_empty (q ≫= sessionId)) in
  let r := trim (String_or_empty (q ≫= role)) in
  if bool_decide (sid = []) then
    emit (ForceClose socket) σ
  else
    let σ := join socket sid σ in
    let '(s, σ) := getSession sid σ in
    let σ :=
      if bool_decide (r = lit "publisher")
      then update s (λ o, set_publishers (publishers o + 1) o) σ
      else update s (λ o, set_viewers (viewers o + 1) o) σ in
    let σ :=
      if truthy (lastState (deref σ s))
      then emit (Direct socket (state_event (lastState (deref σ s)))) σ
      else σ in
    with_conns (insert socket (Closure sid r s)) σ.

(** [socket.on("hb:event", (payload) => ...)].  A socket without
    registered handlers (rejected, or already gone) has nothing to run.
    Nothing in the body throws on the values modelled, so the
    [try]/[catch] is transparent. *)
Definition on_event (socket : conn_id) (payload : value) (σ : relay)
    : relay :=
  match conns σ !! socket with
  | None => σ
  | Some cl =>
      if negb (truthy payload)
         || negb (bool_decide (typeof payload = lit "object"))
      then σ
      else
        let σ :=
          if strict_eq_str (get payload (lit "type")) (lit "state")
          then update (cl_s cl)
                 (set_lastState (Js.or (get payload (lit "data")) JNull)) σ
          else σ in
        emit (Broadcast (cl_sid cl) (members (cl_sid cl) σ) payload) σ
  end.

(** [socket.on("disconnect", () => ...)]: the transport drops the socket
    from its rooms and its handlers run once. *)
Definition on_disconnect (socket : conn_id) (σ : relay) : relay :=
  match conns σ !! socket with
  | None => σ
  | Some cl =>
      let σ := with_conns (delete socket) (leave_all socket σ) in
      let '(ss, σ) := getSession (cl_sid cl) σ in
      let σ :=
        if bool_decide (cl_r cl = lit "publisher")
        then update ss (λ o, set_publishers (Z.max 0 (publishers o - 1)) o) σ
        else update ss (λ o, set_viewers (Z.max 0 (viewers o - 1)) o) σ in
      if (publishers (deref σ ss) =? 0) && (viewers (deref σ ss) =? 0)
      then with_sessions (delete (cl_sid cl)) σ
      else σ
  end.

(** *** Runs of the server *)

(** The server processes one of these at a time, to completion. *)
Inductive op :=
| Connect (q : option query)
| Event (socket : conn_id) (payload : value)
| Disconnect (socket : conn_id).

Definition step (σ : relay) (o : op) : relay :=
  match o with
  | Connect q => on_connection q σ
  | Event socket payload => on_event socket payload σ
  | Disconnect socket => on_disconnect socket σ
  end.

Definition run (σ : relay) (ops : list op) : relay := fold_left step ops σ.

Inductive reachable : relay → Prop :=
| reachable_init : reachable init
| reachable_step σ o : reachable σ → reachable (step σ o).

(** The session stored under a key, if any. *)
Definition lookup_session (sid : jsstring) (σ : relay) : option session :=
  a ← sessions σ !! sid; heap σ !! a.


(** The session key and the role string the connection handler computes
    from the handshake. *)
Definition sid_of (q : option query) : jsstring :=
  trim (String_or_empty (q ≫= sessionId)).

Definition r_of (q : option query) : jsstring :=
  trim (String_or_empty (q ≫= role)).

(** The handlers of a socket count it as a publisher exactly when the
    test [r === "publisher"] succeeds. *)
Definition is_publisher (cl : closure) : bool :=
  bool_decide (cl_r cl = lit "publisher").

(** The live sockets of a session with a given role. *)
Definition attached (sid : jsstring) (pub : bool) (σ : relay)
    : gmap conn_id closure :=
  filter (λ kv, cl_sid kv.2 = sid ∧ is_publisher kv.2 = pub) (conns σ).

(** Every socket named by an emission is older than [n]. *)
Definition emission_below (n : conn_id) (e : emission) : Prop :=
  match e with
  | Direct c _ => (c < n)%nat
  | Broadcast _ ms _ => ∀ c, c ∈ ms → (c < n)%nat
  | ForceClose c => (c < n)%nat
  end.

(** ** Invariants of the reachable states *)

Record wf (σ : relay) : Prop := Wf {
  wf_heap : ∀ a, is_Some (heap σ !! a) → (a < next_addr σ)%nat;
  wf_reg : ∀ sid a, sessions σ !! sid = Some a → is_Some (heap σ !! a);
  wf_inj : ∀ sid1 sid2 a,
    sessions σ !! sid1 = Some a → sessions σ !! sid2 = Some a → sid1 = sid2;
  wf_ids : ∀ c, is_Some (conns σ !! c) → (c < next_id σ)%nat;
  wf_owner : ∀ c cl,
    conns σ !! c = Some cl → sessions σ !! cl_sid cl = Some (cl_s cl);
  wf_counts : ∀ sid o,
    lookup_session sid σ = Some o →
    publishers o = Z.of_nat (size (attached sid true σ))
    ∧ viewers o = Z.of_nat (size (attached sid false σ));
  wf_rooms : ∀ sid c,
    c ∈ members sid σ ↔ ∃ cl, conns σ !! c = Some cl ∧ cl_sid cl = sid;
  wf_state : ∀ a o,
    heap σ !! a = Some o → lastState o = JNull ∨ truthy (lastState o) = true;
  wf_log : Forall (emission_below (next_id σ)) (log σ)
}.

(** *** Vocabulary of the statements *)

(** The reference and the object [getSession] answers with. *)
Definition session_addr (sid : jsstring) (σ : relay) : addr :=
  default (next_addr σ) (sessions σ !! sid).

Definition session_or_new (sid : jsstring) (σ : relay) : session :=
  default (Session JNull 0 0) (lookup_session sid σ).

Definition arrive (r : jsstring) (o : session) : session :=
  if bool_decide (r = lit "publisher")
  then set_publishers (publishers o + 1) o
  else set_viewers (viewers o + 1) o.

Definition depart (r : jsstring) (o : session) : session :=
  if bool_decide (r = lit "publisher")
  then set_publishers (Z.max 0 (publishers o - 1)) o
  else set_viewers (Z.max 0 (viewers o - 1)) o.

Definition catch_up (c : conn_id) (o : session) : list emission :=
  if truthy (lastState o) then [Direct c (state_event (lastState o))] else [].

(** The test the event handler applies before it processes a payload. *)
Definition processed (p : value) : bool :=
  negb (negb (truthy p) || negb (bool_decide (typeof p = lit "object"))).

Definition is_state (p : value) : bool :=
  strict_eq_str (get p (lit "type")) (lit "state").

Definition cached (p : value) : value := Js.or (get p (lit "data")) JNull.

Definition emptied (o : session) : bool :=
  (publishers o =? 0) && (viewers o =? 0).

(** The session an operation acts on, if any. *)
Definition op_session (σ : relay) (o : op) : option jsstring :=
  match o with
  | Connect q => if decide (sid_of q = []) then None else Some (sid_of q)
  | Event c _ => cl_sid <$> conns σ !! c
  | Disconnect c => cl_sid <$> conns σ !! c
  end.

(** What one operation appends to the log. *)
Definition emitted (σ : relay) (o : op) : list emission :=
  match o with
  | Connect q =>
      if decide (sid_of q = []) then [ForceClose (next_id σ)]
      else catch_up (next_id σ) (session_or_new (sid_of q) σ)
  | Event c p =>
      match conns σ !! c with
      | Some cl =>
          if processed p
          then [Broadcast (cl_sid cl) (members (cl_sid cl) σ) p]
          else []
      | None => []
      end
  | Disconnect _ => []
  end.

(** A handshake with both parameters present. *)
Definition hs (sid r : string) : option query :=
  Some (Query (Some (lit sid)) (Some (lit r))).

Definition score5 : value := JObj [(lit "score", num 5)].

Definition state_score5 : value :=
  JObj [(lit "type", JStr (lit "state")); (lit "data", score5);
        (lit "ts", num 17)].

(** A publisher of session [abc] that has sent one state event. *)
Definition published : relay :=
  run init [Connect (hs "abc" "publisher"); Event 0%nat state_score5].

(** A processed state event from a socket of session [sid]. *)
Definition state_event_in (sid : jsstring) (σ : relay) (o : op) : bool :=
  match o with
  | Event c p =>
      match conns σ !! c with
      | Some cl => bool_decide (cl_sid cl = sid) && processed p && is_state p
      | None => false
      end
  | _ => false
  end.

(** A run during which session [sid] sees no further state event and is
    never evicted. *)
Fixpoint quiet (sid : jsstring) (σ : relay) (ops : list op) : bool :=
  match ops with
  | [] => true
  | o :: ops' =>
      negb (state_event_in sid σ o)
      && bool_decide (is_Some (sessions (step σ o) !! sid))
      && quiet sid (step σ o) ops'
  end.

(** The cache content in the specification's words: the data field, or
    [null] when the event has none. *)
Definition data_or_null_if_absent (d : value) : value :=
  match d with
  | JUndefined => JNull
  | _ => d
  end.

(** The specification's wording of the caching rule, at one state,
    socket and payload. *)
Definition stores_data_field (σ : relay) (c : conn_id) (p : value) : Prop :=
  ∀ cl, conns σ !! c = Some cl → processed p = true → is_state p = true →
    lastState <$> lookup_session (cl_sid cl) (on_event c p σ)
    = Some (data_or_null_if_absent (get p (lit "data"))).

Definition state_zero : value :=
  JObj [(lit "type", JStr (lit "state")); (lit "data", JNum (S754_zero false))].

(** The specification's wording of the role rule, at one state and
    handshake: with a non-empty session identifier, the socket is a
    publisher exactly when the role supplied is the string [publisher]. *)
Definition role_as_supplied (σ : relay) (q : option query) : Prop :=
  String_or_empty (q ≫= sessionId) ≠ [] →
  ∃ cl, conns (on_connection q σ) !! next_id σ = Some cl
        ∧ (is_publisher cl = true ↔ q ≫= role = Some (lit "publisher")).

(** Payloads that are not structured objects: [undefined] (absent),
    [null] and the primitives.  Arrays are objects to [typeof]. *)
Definition unstructured (p : value) : Prop :=
  match p with
  | JArr _ | JObj _ => False
  | _ => True
  end.


(** ** HTTP routes *)

(** What a route answers: [res.status(n).send(text)] or [res.json(v)]
    (status 200 when the route sets none). *)
Inductive response :=
| Text (status : Z) (body : jsstring)
| Json (status : Z) (payload : value).

(** [GET /health] *)
Definition health : response := Text 200 (lit "ok").

(** [POST /api/session]: [uuid] is what [uuidv4()] returned. *)
Definition api_session_id (uuid : jsstring) : jsstring :=
  slice0 12 (remove_dashes uuid).

Definition api_session (uuid : jsstring) : response :=
  Json 200 (JObj [(lit "ok", JBool true);
                  (lit "sessionId", JStr (api_session_id uuid))]).

(** The double quote character. *)
Definition dq : jsstring := [34%N].

(** The overlay page up to the interpolated session identifier. *)
Definition overlay_before : jsstring :=
  lit "<!doctype html>
<html>
<head>
  <meta charset="
  ++ dq ++ lit "utf-8"
  ++ dq ++ lit " />
  <meta name="
  ++ dq ++ lit "viewport"
  ++ dq ++ lit " content="
  ++ dq ++ lit "width=device-width,initial-scale=1"
  ++ dq ++ lit " />
  <title>Hollow Bridge Relay Overlay</title>
  <style>
    html, body { margin:0; padding:0; width:100%; height:100%; background: transparent; overflow:hidden; }
    #status { position: fixed; top: 10px; left: 10px; z-index: 999999; padding: 8px 10px;
      font-family: Segoe UI, Arial, sans-serif; font-size: 12px;
      border-radius: 10px; background: rgba(0,0,0,.55); color:#fff; border: 1px solid rgba(255,255,255,.2);
      display:none;
    }
  </style>
</head>
<body>
  <div id="
  ++ dq ++ lit "status"
  ++ dq ++ lit "></div>

  <!-- We keep this relay overlay "
  ++ dq ++ lit "dumb"
  ++ dq ++ lit ": it just receives events.
       Your actual Hollow Bridge overlay HTML can be injected later.
  -->

  <script src="
  ++ dq ++ lit "/socket.io/socket.io.js"
  ++ dq ++ lit "></script>
  <script>
    const sessionId = ".

(** The overlay page after the interpolated session identifier. *)
Definition overlay_after : jsstring :=
  lit ";
    const statusEl = document.getElementById('status');

    function showStatus(msg){
      statusEl.style.display = 'block';
      statusEl.textContent = msg;
    }

    // Connect as viewer
    const socket = io({
      transports: ['websocket', 'polling'],
      query: { sessionId, role: 'viewer' }
    });

    socket.on('connect', () => showStatus('Connected to relay: ' + sessionId));
    socket.on('disconnect', () => showStatus('Disconnected - retrying...'));

    // Generic event pass-through: the desktop app will emit these
    // You can later attach these to your real overlay renderer.
    socket.on('hb:event', (payload) => {
      // For now, just expose it globally for debugging
      window.__HB_LAST_EVENT__ = payload;
      // If you want, you can console.log it:
      // console.log('hb:event', payload);
    });

    // (Optional) Keepalive display off after a moment
    setTimeout(() => { statusEl.style.display = 'none'; }, 2000);
  </script>
</body>
</html>".

(** [GET /overlay/:sessionId]: [param] is [req.params.sessionId]. *)
Definition overlay (param : option jsstring) : response :=
  let sessionId := trim (String_or_empty param) in
  if bool_decide (sessionId = []) then Text 400 (lit "Missing sessionId")
  else Text 200 (overlay_before ++ JSON_stringify sessionId ++ overlay_after).


(** Hexadecimal digits as [uuidv4] writes them. *)
Definition is_hex (c : N) : bool :=
  (((48 <=? c) && (c <=? 57)) || ((97 <=? c) && (c <=? 102)))%N.

(** Code units [JSON.stringify] copies unchanged. *)
Definition plain (c : N) : bool :=
  ((32 <=? c) && negb (c =? 34) && negb (c =? 92)
   && negb (is_high_surrogate c) && negb (is_low_surrogate c))%N.

(** Empty, or beginning with a character that is not white space. *)
Definition starts_clean (s : jsstring) : Prop :=
  match s with
  | [] => True
  | c :: _ => is_white_space c = false
  end.

(** What the relay may hand to the transport in state [σ]. *)
Definition disciplined (σ : relay) (e : emission) : Prop :=
  match e with
  | Direct c p => ∃ v, p = state_event v ∧ truthy v = true
  | Broadcast room ms p => processed p = true ∧ room ≠ []
  | ForceClose c => conns σ !! c = None
  end.

(** ** Closed forms of the handlers *)

Lemma on_connection_rejected q σ :
  sid_of q = [] →
  on_connection q σ
  = Relay (sessions σ) (heap σ) (next_addr σ) (conns σ) (rooms σ)
      (S (next_id σ)) (log σ ++ [ForceClose (next_id σ)]).
Proof.
  intros H. unfold on_connection. fold (sid_of q). rewrite H. reflexivity.
Qed.

Lemma on_connection_accepted q σ :
  wf σ → sid_of q ≠ [] →
  on_connection q σ
  = Relay (<[sid_of q := session_addr (sid_of q) σ]> (sessions σ))
      (<[session_addr (sid_of q) σ :=
           arrive (r_of q) (session_or_new (sid_of q) σ)]> (heap σ))
      (if sessions σ !! sid_of q is Some _ then next_addr σ
       else S (next_addr σ))
      (<[next_id σ :=
           Closure (sid_of q) (r_of q) (session_addr (sid_of q) σ)]> (conns σ))
      (<[sid_of q := {[next_id σ]} ∪ members (sid_of q) σ]> (rooms σ))
      (S (next_id σ))
      (log σ ++ catch_up (next_id σ)
                  (arrive (r_of q) (session_or_new (sid_of q) σ))).
Proof.
  intros W H. unfold on_connection. fold (sid_of q) (r_of q).
  rewrite bool_decide_eq_false_2 by done.
  unfold getSession, session_addr, session_or_new, lookup_session, catch_up,
    arrive.
  cbn [sessions with_next_id join with_rooms].
  destruct (sessions σ !! sid_of q) as [a|] eqn:E; cbn [default mbind option_bind].
  - destruct (wf_reg σ W _ _ E) as [o Ho]. rewrite Ho. cbn [default].
    assert (Hd : ∀ f, deref (update a f
        (Relay (sessions σ) (heap σ) (next_addr σ) (conns σ)
           (<[sid_of q:={[next_id σ]} ∪ members (sid_of q) σ]> (rooms σ))
           (S (next_id σ)) (log σ))) a = f o).
    { intros f. unfold deref, update, with_heap. cbn [heap].
      by rewrite lookup_alter_eq, Ho. }
    assert (Ha : ∀ f, alter f a (heap σ) = <[a := f o]> (heap σ)).
    { intros f. apply map_eq. intros j. destruct (decide (a = j)) as [->|].
      - by rewrite lookup_alter_eq, lookup_insert_eq, Ho.
      - by rewrite lookup_alter_ne, lookup_insert_ne. }
    rewrite (insert_id (sessions σ)) by done.
    destruct (bool_decide (r_of q = lit "publisher")); rewrite Hd;
      (destruct (truthy _); unfold update, emit, with_conns, with_heap;
       cbn; rewrite ?Ha, ?app_nil_r; reflexivity).
  - cbn [default].
    assert (Ha : ∀ f (x : session),
      alter f (next_addr σ) (<[next_addr σ := x]> (heap σ))
      = <[next_addr σ := f x]> (heap σ)).
    { intros f x. apply map_eq. intros j.
      destruct (decide (next_addr σ = j)) as [->|].
      - by rewrite lookup_alter_eq, !lookup_insert_eq.
      - by rewrite lookup_alter_ne, !lookup_insert_ne. }
    destruct (bool_decide (r_of q = lit "publisher"));
      unfold deref, update, emit, with_conns, with_heap, with_sessions,
        with_next_addr; cbn; rewrite Ha, lookup_insert_eq; cbn;
      rewrite ?app_nil_r; reflexivity.
Qed.

Lemma on_event_no_handler c p σ :
  conns σ !! c = None → on_event c p σ = σ.
Proof. intros H. unfold on_event. by rewrite H. Qed.

Lemma on_event_dropped c p σ :
  processed p = false → on_event c p σ = σ.
Proof.
  intros H. unfold on_event. destruct (conns σ !! c); [|done].
  unfold processed in H. apply negb_false_iff in H. by rewrite H.
Qed.

Lemma on_event_processed c cl p σ :
  conns σ !! c = Some cl → processed p = true →
  on_event c p σ
  = Relay (sessions σ)
      (if is_state p then alter (set_lastState (cached p)) (cl_s cl) (heap σ)
       else heap σ)
      (next_addr σ) (conns σ) (rooms σ) (next_id σ)
      (log σ ++ [Broadcast (cl_sid cl) (members (cl_sid cl) σ) p]).
Proof.
  intros Hc H. unfold on_event. rewrite Hc.
  unfold processed in H. apply negb_true_iff in H. rewrite H.
  fold (is_state p) (cached p). destruct (is_state p); reflexivity.
Qed.

Lemma on_disconnect_no_handler c σ :
  conns σ !! c = None → on_disconnect c σ = σ.
Proof. intros H. unfold on_disconnect. by rewrite H. Qed.

Lemma on_disconnect_live c cl o σ :
  wf σ → conns σ !! c = Some cl → heap σ !! cl_s cl = Some o →
  on_disconnect c σ
  = Relay (if emptied (depart (cl_r cl) o)
           then delete (cl_sid cl) (sessions σ) else sessions σ)
      (<[cl_s cl := depart (cl_r cl) o]> (heap σ))
      (next_addr σ) (delete c (conns σ))
      ((λ m, m ∖ {[c]}) <$> rooms σ) (next_id σ) (log σ).
Proof.
  intros W Hc Ho. unfold on_disconnect. rewrite Hc.
  unfold getSession. cbn [sessions with_conns leave_all with_rooms].
  rewrite (wf_owner σ W _ _ Hc).
  assert (Ha : ∀ f, alter f (cl_s cl) (heap σ) = <[cl_s cl := f o]> (heap σ)).
  { intros f. apply map_eq. intros j. destruct (decide (cl_s cl = j)) as [<-|].
    - by rewrite lookup_alter_eq, lookup_insert_eq, Ho.
    - by rewrite lookup_alter_ne, lookup_insert_ne. }
  unfold depart, emptied.
  destruct (bool_decide (cl_r cl = lit "publisher"));
    unfold deref, update, with_heap, with_sessions; cbn;
    rewrite Ha, lookup_insert_eq; cbn;
    destruct (_ && _); reflexivity.
Qed.

(** *** The invariants hold initially and are preserved *)

Lemma wf_init : wf init.
Proof.
  split; cbn.
  - intros a [x Hx]. by rewrite lookup_empty in Hx.
  - intros sid a H. by rewrite lookup_empty in H.
  - intros sid1 sid2 a H. by rewrite lookup_empty in H.
  - intros c [x Hx]. by rewrite lookup_empty in Hx.
  - intros c cl H. by rewrite lookup_empty in H.
  - intros sid o H. unfold lookup_session in H. cbn in H.
    by rewrite lookup_empty in H.
  - intros sid c. unfold members. cbn. rewrite lookup_empty. cbn. split.
    + set_solver.
    + intros (cl & H & _). by rewrite lookup_empty in H.
  - intros a o H. by rewrite lookup_empty in H.
  - constructor.
Qed.

Lemma heap_fresh σ : wf σ → heap σ !! next_addr σ = None.
Proof.
  intros W. destruct (heap σ !! next_addr σ) eqn:E; [|done].
  assert (next_addr σ < next_addr σ)%nat by (apply (wf_heap σ W); eauto). lia.
Qed.

Lemma conn_fresh σ : wf σ → conns σ !! next_id σ = None.
Proof.
  intros W. destruct (conns σ !! next_id σ) eqn:E; [|done].
  assert (next_id σ < next_id σ)%nat by (apply (wf_ids σ W); eauto). lia.
Qed.

Lemma session_cases sid σ :
  wf σ →
  (∃ a o, sessions σ !! sid = Some a ∧ heap σ !! a = Some o
          ∧ session_addr sid σ = a ∧ session_or_new sid σ = o)
  ∨ (sessions σ !! sid = None ∧ session_addr sid σ = next_addr σ
     ∧ session_or_new sid σ = Session JNull 0 0
     ∧ ∀ c cl, conns σ !! c = Some cl → cl_sid cl ≠ sid).
Proof.
  intros W. unfold session_addr, session_or_new, lookup_session.
  destruct (sessions σ !! sid) as [a|] eqn:E; cbn.
  - left. destruct (wf_reg σ W _ _ E) as [o Ho]. exists a, o. by rewrite Ho.
  - right. repeat split; try done. intros c cl Hc <-.
    rewrite (wf_owner σ W _ _ Hc) in E. done.
Qed.

Lemma arrive_lastState r o : lastState (arrive r o) = lastState o.
Proof. unfold arrive. by destruct (bool_decide _). Qed.

Lemma depart_lastState r o : lastState (depart r o) = lastState o.
Proof. unfold depart. by destruct (bool_decide _). Qed.

Lemma emission_below_mono n m e :
  (n ≤ m)%nat → emission_below n e → emission_below m e.
Proof.
  intros Hle. destruct e; cbn; [lia| |lia].
  intros H c Hc. specialize (H c Hc). lia.
Qed.

Lemma attached_empty sid pub σ :
  (∀ c cl, conns σ !! c = Some cl → cl_sid cl ≠ sid) →
  attached sid pub σ = ∅.
Proof.
  intros H. unfold attached. apply map_empty. intros c.
  apply map_lookup_filter_None. right. intros cl Hc [Hs _]. cbn in Hs.
  by eapply H.
Qed.

Section filter_size.
Context (P : conn_id * closure → Prop) `{!∀ x, Decision (P x)}.
Implicit Types m : gmap conn_id closure.

Lemma filter_size_insert m c cl :
  m !! c = None →
  size (filter P (<[c := cl]> m))
  = if decide (P (c, cl)) then S (size (filter P m)) else size (filter P m).
Proof.
  intros Hc. rewrite map_filter_insert. case_decide.
  - apply map_size_insert_None, map_lookup_filter_None. by left.
  - by rewrite delete_id.
Qed.

Lemma filter_size_delete m c cl :
  m !! c = Some cl →
  size (filter P (delete c m))
  = if decide (P (c, cl)) then pred (size (filter P m))
    else size (filter P m).
Proof.
  intros Hc. rewrite map_filter_delete. case_decide.
  - apply map_size_delete_Some. exists cl. by apply map_lookup_filter_Some.
  - apply map_size_delete_None, map_lookup_filter_None. right.
    intros cl' Hc'. congruence.
Qed.

Lemma filter_size_pos m c cl :
  m !! c = Some cl → P (c, cl) → (0 < size (filter P m))%nat.
Proof.
  intros Hc HP.
  assert (size (filter P m) ≠ 0%nat); [|lia].
  apply map_size_ne_0_lookup. exists c, cl. by apply map_lookup_filter_Some.
Qed.
End filter_size.

Lemma wf_on_connection q σ : wf σ → wf (on_connection q σ).
Proof.
  intros W. destruct (decide (sid_of q = [])) as [Hq|Hq].
  { rewrite on_connection_rejected by done. destruct W. split; cbn; try done.
    - intros c Hc. specialize (wf_ids0 c Hc). lia.
    - apply Forall_app. split.
      + eapply Forall_impl; [done|]. intros e. apply emission_below_mono. lia.
      + repeat constructor. }
  rewrite on_connection_accepted by done.
  set (sid := sid_of q) in *. set (r := r_of q).
  pose proof (conn_fresh σ W) as Hfc.
  pose proof (heap_fresh σ W) as Hfa.
  split; cbn.
  - (* heap addresses are allocated *)
    intros x Hx. apply lookup_insert_is_Some in Hx.
    assert (x < next_addr σ ∨ x = next_addr σ ∧ sessions σ !! sid = None)%nat
      as Hlt.
    { destruct Hx as [<-|[_ Hx]]; [|left; by apply (wf_heap σ W)].
      destruct (session_cases sid σ W) as [(a & o & E & Ho & -> & _)
                                          |(E & -> & _)].
      - left. apply (wf_heap σ W). eauto.
      - by right. }
    destruct Hlt as [?|[-> ->]]; [|lia]. destruct (sessions σ !! sid); lia.
  - (* keys point into the heap *)
    intros sid' a' H. apply lookup_insert_is_Some'.
    apply lookup_insert_Some in H as [[_ <-]|[_ H]]; [by left|].
    right. by apply (wf_reg σ W sid').
  - (* distinct keys, distinct objects *)
    assert (∀ s1 a1, s1 ≠ sid → sessions σ !! s1 = Some a1 →
                     a1 ≠ session_addr sid σ) as Hne.
    { intros s1 a1 Hs1 H1 ->.
      destruct (session_cases sid σ W) as [(a & o & E & Ho & Ea & _)
                                          |(E & Ea & _)].
      - rewrite Ea in H1. by apply Hs1, (wf_inj σ W s1 sid a).
      - rewrite Ea in H1. apply (wf_reg σ W) in H1. rewrite Hfa in H1.
        by destruct H1. }
    intros s1 s2 a' H1 H2.
    apply lookup_insert_Some in H1 as [[<- <-]|[N1 H1]];
      apply lookup_insert_Some in H2 as [[<- E2]|[N2 H2]]; try done.
    + exfalso. by apply (Hne s2 _ (not_eq_sym N2) H2).
    + exfalso. subst a'. by apply (Hne s1 _ (not_eq_sym N1) H1).
    + by apply (wf_inj σ W s1 s2 a').
  - (* socket identifiers are allocated *)
    intros c Hc. apply lookup_insert_is_Some in Hc as [<-|[_ Hc]]; [lia|].
    specialize (wf_ids σ W c Hc). lia.
  - (* each socket holds the object stored under its key *)
    intros c cl Hc. apply lookup_insert_Some in Hc as [[_ <-]|[_ Hc]]; cbn.
    + by rewrite lookup_insert_eq.
    + pose proof (wf_owner σ W c cl Hc) as Ho.
      destruct (decide (sid = cl_sid cl)) as [E|N].
      * rewrite <- E in *. rewrite lookup_insert_eq. unfold session_addr.
        by rewrite Ho.
      * by rewrite lookup_insert_ne.
  - (* counters count sockets *)
    intros sid' o'. unfold lookup_session, attached. cbn.
    rewrite !filter_size_insert by done. cbn.
    destruct (decide (sid = sid')) as [<-|N].
    + rewrite lookup_insert_eq. cbn. rewrite lookup_insert_eq.
      intros [= <-]. fold (attached sid true σ) (attached sid false σ).
      assert (publishers (session_or_new sid σ)
                = Z.of_nat (size (attached sid true σ))
              ∧ viewers (session_or_new sid σ)
                = Z.of_nat (size (attached sid false σ))) as [Hp Hv].
      { destruct (session_cases sid σ W) as [(a & o & E & Ho & Ea & ->)
                                            |(E & Ea & -> & Hn)].
        - apply (wf_counts σ W). unfold lookup_session. by rewrite E.
        - by rewrite !attached_empty. }
      unfold arrive, is_publisher. cbn. fold r.
      destruct (bool_decide (r = lit "publisher")) eqn:Er; cbn;
        repeat case_decide; first [lia | exfalso; intuition congruence].
    + rewrite lookup_insert_ne by done.
      destruct (sessions σ !! sid') as [a'|] eqn:E'; [|done]. cbn.
      rewrite lookup_insert_ne.
      2:{ intros <-.
          destruct (session_cases sid σ W) as [(a & o & E & Ho & Ea & _)
                                              |(E & Ea & _)].
          - rewrite Ea in E'. by apply N, (wf_inj σ W sid sid' a).
          - rewrite Ea in E'. apply (wf_reg σ W) in E'. rewrite Hfa in E'.
            by destruct E'. }
      intros Ho'. rewrite !decide_False by (cbn; intuition congruence).
      apply (wf_counts σ W). unfold lookup_session. by rewrite E'.
  - (* rooms hold the live sockets of the session *)
    intros sid' c. unfold members. cbn.
    destruct (decide (sid = sid')) as [<-|N].
    + rewrite lookup_insert_eq. cbn. rewrite elem_of_union, elem_of_singleton.
      rewrite (wf_rooms σ W sid c). split.
      * intros [->|(cl & Hc & Hs)].
        -- eexists. rewrite lookup_insert_eq. done.
        -- exists cl. rewrite lookup_insert_ne; [done|]. intros <-. congruence.
      * intros (cl & Hc & Hs).
        apply lookup_insert_Some in Hc as [[<- _]|[_ Hc]]; [by left|].
        right. eauto.
    + rewrite lookup_insert_ne by done. fold (members sid' σ).
      rewrite (wf_rooms σ W sid' c). split.
      * intros (cl & Hc & Hs). exists cl.
        rewrite lookup_insert_ne; [done|]. intros <-. congruence.
      * intros (cl & Hc & Hs).
        apply lookup_insert_Some in Hc as [[_ <-]|[_ Hc]]; [done|]. eauto.
  - (* cached state is null or truthy *)
    intros a o H. apply lookup_insert_Some in H as [[_ <-]|[_ H]].
    + rewrite arrive_lastState.
      destruct (session_cases sid σ W) as [(a' & o' & E & Ho & Ea & ->)
                                          |(E & Ea & -> & Hn)].
      * by apply (wf_state σ W a').
      * by left.
    + by apply (wf_state σ W a).
  - (* emissions name allocated sockets *)
    apply Forall_app. split.
    + eapply Forall_impl; [apply (wf_log σ W)|].
      intros e. apply emission_below_mono. lia.
    + unfold catch_up. destruct (truthy _); repeat constructor.
Qed.

Lemma cached_null_or_truthy p :
  cached p = JNull ∨ truthy (cached p) = true.
Proof.
  unfold cached, Js.or. destruct (truthy (get p (lit "data"))) eqn:E; auto.
Qed.

Lemma wf_on_event c p σ : wf σ → wf (on_event c p σ).
Proof.
  intros W. destruct (conns σ !! c) as [cl|] eqn:Hc.
  2:{ by rewrite on_event_no_handler. }
  destruct (processed p) eqn:Hp.
  2:{ by rewrite on_event_dropped. }
  rewrite (on_event_processed c cl) by done.
  assert (∀ a, is_Some ((if is_state p
      then alter (set_lastState (cached p)) (cl_s cl) (heap σ)
      else heap σ) !! a) ↔ is_Some (heap σ !! a)) as Hdom.
  { intros a. destruct (is_state p); [|done]. apply lookup_alter_is_Some. }
  split; cbn.
  - intros a Ha. apply (wf_heap σ W), Hdom, Ha.
  - intros sid a Ha. apply Hdom. by apply (wf_reg σ W sid).
  - apply (wf_inj σ W).
  - apply (wf_ids σ W).
  - apply (wf_owner σ W).
  - intros sid o. unfold lookup_session, attached. cbn.
    destruct (sessions σ !! sid) as [a|] eqn:E; cbn; [|intros; discriminate].
    destruct (is_state p).
    + rewrite lookup_alter. case_decide; simplify_eq.
      * destruct (heap σ !! cl_s cl) as [o0|] eqn:Ho; simpl;
          [|intros; discriminate].
        intros [= <-].
        cbn. apply (wf_counts σ W). unfold lookup_session. by rewrite E.
      * intros Ho. apply (wf_counts σ W). unfold lookup_session. by rewrite E.
    + intros Ho. apply (wf_counts σ W). unfold lookup_session. by rewrite E.
  - apply (wf_rooms σ W).
  - intros a o. destruct (is_state p); [|apply (wf_state σ W)].
    rewrite lookup_alter. case_decide; [|apply (wf_state σ W)].
    destruct (heap σ !! cl_s cl) as [o0|]; simpl; [|intros; discriminate].
    intros [= <-]. cbn.
    apply cached_null_or_truthy.
  - apply Forall_app. split; [apply (wf_log σ W)|].
    repeat constructor. cbn. intros c' Hc'.
    apply (wf_rooms σ W) in Hc' as (cl' & Hc' & _).
    apply (wf_ids σ W). eauto.
Qed.

Lemma owner_object c cl σ :
  wf σ → conns σ !! c = Some cl →
  ∃ o, heap σ !! cl_s cl = Some o
       ∧ lookup_session (cl_sid cl) σ = Some o.
Proof.
  intros W Hc. pose proof (wf_owner σ W c cl Hc) as Hs.
  destruct (wf_reg σ W _ _ Hs) as [o Ho]. exists o. split; [done|].
  unfold lookup_session. by rewrite Hs.
Qed.

(** While another socket of the session is live, the departure of one
    does not empty the counters. *)
Lemma depart_not_emptied c cl c' cl' o σ :
  wf σ → conns σ !! c = Some cl → conns σ !! c' = Some cl' → c ≠ c' →
  cl_sid cl' = cl_sid cl → lookup_session (cl_sid cl) σ = Some o →
  emptied (depart (cl_r cl) o) = false.
Proof.
  intros W Hc Hc' Hne Hs Ho.
  destruct (wf_counts σ W _ _ Ho) as [Hp Hv].
  set (P b := λ kv : conn_id * closure,
                cl_sid kv.2 = cl_sid cl ∧ is_publisher kv.2 = b).
  assert (∀ b, is_publisher cl = b → is_publisher cl' = b →
            (2 ≤ size (filter (P b) (conns σ)))%nat) as Htwo.
  { intros b Hb Hb'.
    pose proof (filter_size_delete (P b) (conns σ) c cl Hc) as Hd.
    rewrite decide_True in Hd by done.
    assert (0 < size (filter (P b) (delete c (conns σ))))%nat.
    { apply (filter_size_pos _ _ c' cl'); [|done].
      by rewrite lookup_delete_ne. }
    lia. }
  assert (∀ b, is_publisher cl' = b →
            (1 ≤ size (filter (P b) (conns σ)))%nat) as Hone.
  { intros b Hb'. by apply (filter_size_pos _ _ c' cl'). }
  unfold attached in Hp, Hv. fold (P true) in Hp. fold (P false) in Hv.
  unfold emptied, depart. unfold is_publisher in *.
  apply andb_false_iff.
  destruct (bool_decide (cl_r cl = lit "publisher")) eqn:E,
    (bool_decide (cl_r cl' = lit "publisher")) eqn:E'; cbn.
  - left. apply Z.eqb_neq. specialize (Htwo true eq_refl eq_refl). lia.
  - right. apply Z.eqb_neq. specialize (Hone false eq_refl). lia.
  - left. apply Z.eqb_neq. specialize (Hone true eq_refl). lia.
  - right. apply Z.eqb_neq. specialize (Htwo false eq_refl eq_refl). lia.
Qed.

Lemma wf_on_disconnect c σ : wf σ → wf (on_disconnect c σ).
Proof.
  intros W. destruct (conns σ !! c) as [cl|] eqn:Hc.
  2:{ by rewrite on_disconnect_no_handler. }
  destruct (owner_object c cl σ W Hc) as (o & Ho & Hl).
  pose proof (wf_owner σ W c cl Hc) as Hs.
  rewrite (on_disconnect_live c cl o) by done.
  set (sess' := if emptied (depart (cl_r cl) o)
                then delete (cl_sid cl) (sessions σ) else sessions σ).
  assert (∀ sid a, sess' !! sid = Some a → sessions σ !! sid = Some a) as Hsub.
  { intros sid a. unfold sess'. destruct (emptied _); [|done].
    rewrite lookup_delete_Some. tauto. }
  split; cbn.
  - intros a Ha. apply (wf_heap σ W).
    apply lookup_insert_is_Some in Ha as [<-|[_ Ha]]; eauto.
  - intros sid a Ha. apply lookup_insert_is_Some'. right.
    apply (wf_reg σ W sid), Hsub, Ha.
  - intros s1 s2 a H1 H2. apply (wf_inj σ W s1 s2 a); by apply Hsub.
  - intros c' Hc'. apply lookup_delete_is_Some in Hc' as [_ Hc'].
    by apply (wf_ids σ W).
  - intros c' cl' Hc'. apply lookup_delete_Some in Hc' as [Hne Hc'].
    pose proof (wf_owner σ W c' cl' Hc') as Hs'. unfold sess'.
    destruct (emptied _) eqn:Em; [|done].
    rewrite lookup_delete_ne; [done|]. intros Heq.
    by rewrite (depart_not_emptied c cl c' cl' o σ) in Em.
  - intros sid o'. unfold lookup_session, attached. cbn.
    rewrite !(filter_size_delete _ _ c cl) by done. cbn.
    destruct (sess' !! sid) as [a|] eqn:E; cbn; [|intros; discriminate].
    pose proof (Hsub _ _ E) as E0.
    destruct (decide (sid = cl_sid cl)) as [->|N].
    + assert (a = cl_s cl) as -> by congruence.
      rewrite lookup_insert_eq. intros [= <-].
      destruct (wf_counts σ W _ _ Hl) as [Hp Hv].
      unfold attached in Hp, Hv.
      pose proof (filter_size_pos
        (λ kv : conn_id * closure, cl_sid kv.2 = cl_sid cl
                                   ∧ is_publisher kv.2 = is_publisher cl)
        (conns σ) c cl Hc (conj eq_refl eq_refl)) as Hpos.
      unfold depart. unfold is_publisher in *.
      destruct (bool_decide (cl_r cl = lit "publisher")) eqn:Er; cbn;
        repeat case_decide; first [lia | exfalso; intuition congruence].
    + rewrite lookup_insert_ne.
      2:{ intros <-. by apply N, (wf_inj σ W sid (cl_sid cl) (cl_s cl)). }
      intros Ho'. rewrite !decide_False by (cbn; intuition congruence).
      apply (wf_counts σ W). unfold lookup_session. by rewrite E0.
  - intros sid c'. unfold members. cbn. rewrite lookup_fmap.
    pose proof (wf_rooms σ W sid c') as Hr. unfold members in Hr.
    destruct (rooms σ !! sid) as [m|] eqn:E; cbn in *.
    + rewrite elem_of_difference, elem_of_singleton, Hr.
      setoid_rewrite lookup_delete_Some. split.
      * intros [(cl0 & H1 & H2) Hn]. exists cl0. repeat split; auto.
      * intros (cl0 & [Hn H1] & H2). split; [eauto|]. by apply not_eq_sym.
    + setoid_rewrite lookup_delete_Some. split; [set_solver|].
      intros (cl' & [_ H] & Hs'). apply Hr. eauto.
  - intros a o' H. apply lookup_insert_Some in H as [[_ <-]|[_ H]].
    + rewrite depart_lastState. by apply (wf_state σ W (cl_s cl)).
    + by apply (wf_state σ W a).
  - apply (wf_log σ W).
Qed.

Lemma wf_step σ o : wf σ → wf (step σ o).
Proof.
  destruct o; cbn;
    [apply wf_on_connection | apply wf_on_event | apply wf_on_disconnect].
Qed.

Lemma reachable_wf σ : reachable σ → wf σ.
Proof. induction 1; [apply wf_init | by apply wf_step]. Qed.

Lemma reachable_run σ ops : reachable σ → reachable (run σ ops).
Proof.
  revert σ. induction ops as [|o ops IH]; intros σ H; cbn; [done|].
  apply IH. by constructor.
Qed.

(** ** The effect of one operation on the sessions *)

Lemma session_addr_ne sid s1 a1 σ :
  wf σ → s1 ≠ sid → sessions σ !! s1 = Some a1 → a1 ≠ session_addr sid σ.
Proof.
  intros W Hs1 H1 ->.
  destruct (session_cases sid σ W) as [(a & o & E & Ho & Ea & _)|(E & Ea & _)].
  - rewrite Ea in H1. by apply Hs1, (wf_inj σ W s1 sid a).
  - rewrite Ea in H1. apply (wf_reg σ W) in H1.
    rewrite (heap_fresh σ W) in H1. by destruct H1.
Qed.

Lemma owner_addr_ne sid a c cl σ :
  wf σ → conns σ !! c = Some cl → sid ≠ cl_sid cl →
  sessions σ !! sid = Some a → a ≠ cl_s cl.
Proof.
  intros W Hc Hne Hs ->.
  by apply Hne, (wf_inj σ W sid (cl_sid cl) (cl_s cl)), (wf_owner σ W c).
Qed.

Lemma lookup_session_on_connection q σ :
  wf σ → sid_of q ≠ [] →
  lookup_session (sid_of q) (on_connection q σ)
  = Some (arrive (r_of q) (session_or_new (sid_of q) σ)).
Proof.
  intros W Hq. rewrite on_connection_accepted by done.
  unfold lookup_session. cbn. rewrite lookup_insert_eq. cbn.
  by rewrite lookup_insert_eq.
Qed.

Lemma lookup_session_on_event c cl p o σ :
  wf σ → conns σ !! c = Some cl → processed p = true →
  lookup_session (cl_sid cl) σ = Some o →
  lookup_session (cl_sid cl) (on_event c p σ)
  = Some (if is_state p then set_lastState (cached p) o else o).
Proof.
  intros W Hc Hp Ho. rewrite (on_event_processed c cl) by done.
  unfold lookup_session in *. cbn. rewrite (wf_owner σ W c cl Hc) in *.
  cbn in *. destruct (is_state p); [|done].
  by rewrite lookup_alter_eq, Ho.
Qed.

Lemma lookup_session_on_disconnect c cl o σ :
  wf σ → conns σ !! c = Some cl → lookup_session (cl_sid cl) σ = Some o →
  lookup_session (cl_sid cl) (on_disconnect c σ)
  = if emptied (depart (cl_r cl) o) then None
    else Some (depart (cl_r cl) o).
Proof.
  intros W Hc Ho.
  assert (heap σ !! cl_s cl = Some o) as Hh.
  { unfold lookup_session in Ho. by rewrite (wf_owner σ W c cl Hc) in Ho. }
  rewrite (on_disconnect_live c cl o) by done.
  unfold lookup_session. cbn. destruct (emptied _).
  - by rewrite lookup_delete_eq.
  - rewrite (wf_owner σ W c cl Hc). cbn. by rewrite lookup_insert_eq.
Qed.

(** An operation leaves every session it does not act on as it was. *)
Lemma lookup_session_frame sid σ o :
  wf σ → op_session σ o ≠ Some sid →
  lookup_session sid (step σ o) = lookup_session sid σ.
Proof.
  intros W Hop. destruct o as [q|c p|c]; cbn in *.
  - case_decide as Hq.
    { by rewrite on_connection_rejected. }
    rewrite on_connection_accepted by done.
    assert (sid_of q ≠ sid) as Hne by congruence.
    unfold lookup_session. cbn. rewrite lookup_insert_ne by done.
    destruct (sessions σ !! sid) as [a|] eqn:E; [|done]. cbn.
    rewrite lookup_insert_ne; [done|].
    apply not_eq_sym, (session_addr_ne (sid_of q) sid); auto.
  - destruct (conns σ !! c) as [cl|] eqn:Hc.
    2:{ by rewrite on_event_no_handler. }
    destruct (processed p) eqn:Hp.
    2:{ by rewrite on_event_dropped. }
    rewrite (on_event_processed c cl) by done.
    assert (sid ≠ cl_sid cl) as Hne by (cbn in Hop; congruence).
    unfold lookup_session. cbn.
    destruct (sessions σ !! sid) as [a|] eqn:E; [|done]. cbn.
    destruct (is_state p); [|done].
    rewrite lookup_alter_ne; [done|].
    apply not_eq_sym, (owner_addr_ne sid a c cl σ); auto.
  - destruct (conns σ !! c) as [cl|] eqn:Hc.
    2:{ by rewrite on_disconnect_no_handler. }
    destruct (owner_object c cl σ W Hc) as (o & Ho & Hl).
    rewrite (on_disconnect_live c cl o) by done.
    assert (sid ≠ cl_sid cl) as Hne by (cbn in Hop; congruence).
    unfold lookup_session. cbn.
    assert ((if emptied (depart (cl_r cl) o)
             then delete (cl_sid cl) (sessions σ) else sessions σ) !! sid
            = sessions σ !! sid) as ->.
    { destruct (emptied _); [|done]. by rewrite lookup_delete_ne. }
    destruct (sessions σ !! sid) as [a|] eqn:E; [|done]. cbn.
    rewrite lookup_insert_ne; [done|].
    apply not_eq_sym, (owner_addr_ne sid a c cl σ); auto.
Qed.

(** ** The effect of one operation on the emissions *)



Lemma catch_up_arrive c r o : catch_up c (arrive r o) = catch_up c o.
Proof. unfold catch_up. by rewrite arrive_lastState. Qed.

Lemma log_step σ o : wf σ → log (step σ o) = log σ ++ emitted σ o.
Proof.
  intros W. destruct o as [q|c p|c]; cbn.
  - case_decide.
    + by rewrite on_connection_rejected.
    + rewrite on_connection_accepted by done. cbn. by rewrite catch_up_arrive.
  - destruct (conns σ !! c) as [cl|] eqn:Hc.
    2:{ by rewrite on_event_no_handler, app_nil_r. }
    destruct (processed p) eqn:Hp.
    2:{ by rewrite on_event_dropped, app_nil_r. }
    by rewrite (on_event_processed c cl).
  - rewrite app_nil_r. destruct (conns σ !! c) as [cl|] eqn:Hc.
    2:{ by rewrite on_disconnect_no_handler. }
    destruct (owner_object c cl σ W Hc) as (o & Ho & Hl).
    by rewrite (on_disconnect_live c cl o).
Qed.

Lemma next_id_step σ o : (next_id σ ≤ next_id (step σ o))%nat.
Proof.
  destruct o as [q|c p|c]; cbn.
  - unfold on_connection. case_bool_decide; cbn; [lia|].
    destruct (getSession _ _) as [s σ1] eqn:G.
    assert (next_id σ1 = S (next_id σ)) as Hn.
    { unfold getSession in G. cbn in G.
      destruct (sessions σ !! _); simplify_eq; done. }
    repeat (case_bool_decide || destruct (truthy _)); cbn; lia.
  - unfold on_event. destruct (conns σ !! c); [|done].
    destruct (_ || _); [done|]. destruct (strict_eq_str _ _); cbn; lia.
  - unfold on_disconnect. destruct (conns σ !! c); [|done].
    unfold getSession. cbn. destruct (sessions σ !! _);
      repeat (case_bool_decide || destruct (_ && _)); cbn; lia.
Qed.


Lemma run_cons σ o ops : run σ (o :: ops) = run (step σ o) ops.
Proof. reflexivity. Qed.


Lemma lookup_session_heap sid o σ :
  lookup_session sid σ = Some o →
  ∃ a, sessions σ !! sid = Some a ∧ heap σ !! a = Some o.
Proof.
  unfold lookup_session. destruct (sessions σ !! sid) as [a|]; [|done].
  cbn. eauto.
Qed.


Lemma log_on_connection q σ :
  wf σ → sid_of q ≠ [] →
  log (on_connection q σ)
  = log σ ++ catch_up (next_id σ) (session_or_new (sid_of q) σ).
Proof.
  intros W Hq. pose proof (log_step σ (Connect q) W) as H. cbn in H.
  by rewrite decide_False in H.
Qed.

(** ** Catch-up for late joiners *)



(** ** Round trip of the cached state *)

Lemma conns_step σ o :
  wf σ →
  conns (step σ o)
  = match o with
    | Connect q =>
        if decide (sid_of q = []) then conns σ
        else <[next_id σ := Closure (sid_of q) (r_of q)
                              (session_addr (sid_of q) σ)]> (conns σ)
    | Event _ _ => conns σ
    | Disconnect c => delete c (conns σ)
    end.
Proof.
  intros W. destruct o as [q|c p|c]; cbn.
  - case_decide.
    + by rewrite on_connection_rejected.
    + by rewrite on_connection_accepted.
  - destruct (conns σ !! c) as [cl|] eqn:Hc.
    2:{ by rewrite on_event_no_handler. }
    destruct (processed p) eqn:Hp.
    2:{ by rewrite on_event_dropped. }
    by rewrite (on_event_processed c cl).
  - destruct (conns σ !! c) as [cl|] eqn:Hc.
    2:{ rewrite on_disconnect_no_handler by done. by rewrite delete_id. }
    destruct (owner_object c cl σ W Hc) as (o & Ho & Hl).
    by rewrite (on_disconnect_live c cl o).
Qed.

(** Live sockets belong to sessions with a non-empty key. *)
Lemma live_sid_nonempty σ :
  reachable σ → ∀ c cl, conns σ !! c = Some cl → cl_sid cl ≠ [].
Proof.
  induction 1 as [|σ o R IH]; intros c cl.
  - cbn. by rewrite lookup_empty.
  - rewrite conns_step by by apply reachable_wf.
    destruct o as [q|c' p|c'].
    + case_decide; [apply IH|].
      intros [[_ <-]|[_ Hc]]%lookup_insert_Some; [done|]. by eapply IH.
    + apply IH.
    + intros [_ Hc]%lookup_delete_Some. by eapply IH.
Qed.

Lemma registered_session sid σ :
  wf σ → is_Some (sessions σ !! sid) → is_Some (lookup_session sid σ).
Proof.
  intros W [a Ha]. unfold lookup_session. rewrite Ha. cbn.
  by apply (wf_reg σ W sid).
Qed.

Lemma quiet_step sid σ o s :
  wf σ → lookup_session sid σ = Some s →
  state_event_in sid σ o = false →
  is_Some (sessions (step σ o) !! sid) →
  ∃ s', lookup_session sid (step σ o) = Some s'
        ∧ lastState s' = lastState s.
Proof.
  intros W Hs Hq Hreg.
  destruct (decide (op_session σ o = Some sid)) as [Hop|Hop].
  2:{ exists s. by rewrite lookup_session_frame. }
  destruct o as [q|c p|c]; cbn in Hop, Hq.
  - case_decide as Hn; [done|]. simplify_eq. cbn.
    rewrite lookup_session_on_connection by done. eexists. split; [done|].
    rewrite arrive_lastState. unfold session_or_new. by rewrite Hs.
  - destruct (conns σ !! c) as [cl|] eqn:Hc; [|done].
    cbn in Hop. simplify_eq. cbn.
    destruct (processed p) eqn:Hp.
    + rewrite (lookup_session_on_event c cl p s) by done.
      rewrite bool_decide_eq_true_2 in Hq by done. cbn in Hq. rewrite Hq.
      eauto.
    + rewrite on_event_dropped by done. eauto.
  - destruct (conns σ !! c) as [cl|] eqn:Hc; [|done].
    cbn in Hop. simplify_eq.
    apply (registered_session _ _ (wf_step σ _ W)) in Hreg. cbn in *.
    rewrite (lookup_session_on_disconnect c cl s) in * by done.
    destruct (emptied _); [by destruct Hreg|].
    eexists. split; [done|]. apply depart_lastState.
Qed.

Lemma quiet_run sid σ ops s :
  wf σ → lookup_session sid σ = Some s → quiet sid σ ops = true →
  ∃ s', lookup_session sid (run σ ops) = Some s'
        ∧ lastState s' = lastState s.
Proof.
  revert σ s. induction ops as [|o ops IH]; intros σ s W Hs Hq.
  - eauto.
  - cbn in Hq. apply andb_true_iff in Hq as [Hq Hq3].
    apply andb_true_iff in Hq as [Hq1 Hq2].
    apply negb_true_iff in Hq1. apply bool_decide_eq_true in Hq2.
    destruct (quiet_step sid σ o s W Hs Hq1 Hq2) as (s1 & Hs1 & E1).
    destruct (IH (step σ o) s1 (wf_step σ o W) Hs1 Hq3) as (s2 & Hs2 & E2).
    rewrite run_cons. exists s2. split; [done|]. congruence.
Qed.

(** C2. After a socket of a session sends a well-formed event of type
    [state] whose data is [{score: 5}], every socket that joins the
    session afterwards, as long as no further state event was processed
    in the session and the session was not evicted in between, is sent
    exactly [{type: "state", data: {score: 5}}] as its catch-up. *)
Theorem state_round_trip σ c cl p ops q :
  reachable σ → conns σ !! c = Some cl →
  processed p = true → is_state p = true → get p (lit "data") = score5 →
  quiet (cl_sid cl) (on_event c p σ) ops = true →
  sid_of q = cl_sid cl →
  let σ1 := run (on_event c p σ) ops in
  log (on_connection q σ1)
  = log σ1 ++ [Direct (next_id σ1)
                 (JObj [(lit "type", JStr (lit "state"));
                        (lit "data", score5)])].
Proof.
  intros R Hc Hp Hst Hd Hq Hsid σ1.
  pose proof (reachable_wf σ R) as W.
  destruct (owner_object c cl σ W Hc) as (o & Ho & Hl).
  assert (lookup_session (cl_sid cl) (on_event c p σ)
          = Some (set_lastState score5 o)) as Hev.
  { rewrite (lookup_session_on_event c cl p o) by done. rewrite Hst.
    unfold cached. by rewrite Hd. }
  destruct (quiet_run _ _ ops _ (wf_on_event c p σ W) Hev Hq)
    as (s' & Hs' & E). cbn in E. fold σ1 in Hs'.
  assert (wf σ1) as W1.
  { apply reachable_wf, reachable_run.
    by apply (reachable_step σ (Event c p)). }
  assert (sid_of q ≠ []) as Hne.
  { rewrite Hsid. by apply (live_sid_nonempty σ R c). }
  rewrite log_on_connection by done.
  unfold catch_up, session_or_new. rewrite Hsid, Hs'. cbn. by rewrite E.
Qed.

Lemma state_round_trip_witness :
  log (on_connection (hs " abc" "viewer")
         (run published [Connect (hs "xyz" "publisher"); Disconnect 1%nat]))
  = log published
    ++ [Direct 2%nat (JObj [(lit "type", JStr (lit "state"));
                            (lit "data", score5)])].
Proof.
  apply (state_round_trip
           (run init [Connect (hs "abc" "publisher")]) 0%nat
           (Closure (lit "abc") (lit "publisher") 0%nat) state_score5
           [Connect (hs "xyz" "publisher"); Disconnect 1%nat]
           (hs " abc" "viewer")).
  - apply reachable_run, reachable_init.
  - vm_compute. reflexivity.
  - vm_compute. reflexivity.
  - vm_compute. reflexivity.
  - vm_compute. reflexivity.
  - vm_compute. reflexivity.
  - vm_compute. reflexivity.
Defined.

(** ** Eviction *)

Lemma counters_nonneg sid o σ :
  wf σ → lookup_session sid σ = Some o → 0 ≤ publishers o ∧ 0 ≤ viewers o.
Proof. intros W Ho. destruct (wf_counts σ W sid o Ho). lia. Qed.

Lemma session_or_new_nonneg sid σ :
  wf σ →
  0 ≤ publishers (session_or_new sid σ) ∧ 0 ≤ viewers (session_or_new sid σ).
Proof.
  intros W. unfold session_or_new.
  destruct (lookup_session sid σ) as [o|] eqn:Ho; cbn; [|lia].
  by apply (counters_nonneg sid o σ).
Qed.

(** No registered session has both counters at zero. *)
Lemma sessions_populated σ :
  reachable σ → ∀ sid o, lookup_session sid σ = Some o → emptied o = false.
Proof.
  induction 1 as [|σ o R IH]; intros sid s.
  { unfold lookup_session. cbn. by rewrite lookup_empty. }
  pose proof (reachable_wf σ R) as W.
  destruct (decide (op_session σ o = Some sid)) as [Hop|Hop].
  2:{ rewrite lookup_session_frame by done. apply IH. }
  destruct o as [q|c p|c]; cbn in Hop; cbn [step].
  - case_decide as Hn; [done|]. simplify_eq.
    rewrite lookup_session_on_connection by done. intros [= <-].
    destruct (session_or_new_nonneg (sid_of q) σ W).
    unfold emptied, arrive. apply andb_false_iff.
    case_bool_decide; cbn; [left|right]; apply Z.eqb_neq; lia.
  - destruct (conns σ !! c) as [cl|] eqn:Hc; [|done].
    cbn in Hop. simplify_eq.
    destruct (processed p) eqn:Hp.
    2:{ rewrite on_event_dropped by done. apply IH. }
    destruct (owner_object c cl σ W Hc) as (o & Ho & Hl).
    rewrite (lookup_session_on_event c cl p o) by done. intros [= <-].
    specialize (IH _ _ Hl). by destruct (is_state p).
  - destruct (conns σ !! c) as [cl|] eqn:Hc; [|done].
    cbn in Hop. simplify_eq.
    destruct (owner_object c cl σ W Hc) as (o & Ho & Hl).
    rewrite (lookup_session_on_disconnect c cl o) by done.
    destruct (emptied _) eqn:E; [done|]. by intros [= <-].
Qed.

(** C3. In every state the server reaches, each session in the registry
    has non-negative counters that are not both zero; and when a
    disconnect leaves the closing socket's session object with both
    counters at zero, the session's key is gone from the registry in the
    state the disconnect returns. *)
Theorem immediate_eviction σ :
  reachable σ →
  (∀ sid o, lookup_session sid σ = Some o →
     0 ≤ publishers o ∧ 0 ≤ viewers o
     ∧ ¬ (publishers o = 0 ∧ viewers o = 0))
  ∧ (∀ c cl o', conns σ !! c = Some cl →
       heap (on_disconnect c σ) !! cl_s cl = Some o' →
       publishers o' = 0 → viewers o' = 0 →
       sessions (on_disconnect c σ) !! cl_sid cl = None).
Proof.
  intros R. pose proof (reachable_wf σ R) as W. split.
  - intros sid o Ho. destruct (counters_nonneg sid o σ W Ho) as [Hp Hv].
    repeat split; [done..|]. intros [Ep Ev].
    pose proof (sessions_populated σ R sid o Ho) as E.
    unfold emptied in E. rewrite Ep, Ev in E. done.
  - intros c cl o' Hc.
    destruct (owner_object c cl σ W Hc) as (o & Ho & Hl).
    rewrite (on_disconnect_live c cl o) by done. cbn.
    rewrite lookup_insert_eq. intros [= <-] Ep Ev.
    unfold emptied. rewrite Ep, Ev. cbn. apply lookup_delete_eq.
Qed.

Lemma immediate_eviction_witness :
  sessions (run init [Connect (hs "abc" "publisher"); Disconnect 0%nat])
    !! lit "abc" = None.
Proof.
  destruct (immediate_eviction (run init [Connect (hs "abc" "publisher")])
              (reachable_run init _ reachable_init)) as [_ H].
  apply (H 0%nat (Closure (lit "abc") (lit "publisher") 0%nat)
           (Session JNull 0 0)).
  - vm_compute. reflexivity.
  - vm_compute. reflexivity.
  - reflexivity.
  - reflexivity.
Defined.

(** ** Caching of state events *)

(** C4, as worded, fails: a state event whose data field is present but
    falsy (here the number 0) stores [null], not the data field. *)
Lemma state_event_falsy_data :
  ¬ stores_data_field (run init [Connect (hs "abc" "publisher")]) 0%nat
      state_zero.
Proof.
  intros H.
  specialize (H (Closure (lit "abc") (lit "publisher") 0%nat)
                eq_refl eq_refl eq_refl).
  vm_compute in H. discriminate H.
Qed.

(** C4, amended. A well-formed event whose [type] strictly equals
    [state] sets the owning session's [lastState] to the event's data
    field when that field is truthy, and to [null] when it is absent or
    falsy; a well-formed event of any other type leaves the session as it
    was. *)
Theorem state_event_caching σ c cl p :
  reachable σ → conns σ !! c = Some cl → processed p = true →
  ∃ o, lookup_session (cl_sid cl) σ = Some o
       ∧ lookup_session (cl_sid cl) (on_event c p σ)
         = Some (if strict_eq_str (get p (lit "type")) (lit "state")
                 then set_lastState
                        (if truthy (get p (lit "data"))
                         then get p (lit "data") else JNull) o
                 else o).
Proof.
  intros R Hc Hp. pose proof (reachable_wf σ R) as W.
  destruct (owner_object c cl σ W Hc) as (o & Ho & Hl).
  exists o. split; [done|].
  by rewrite (lookup_session_on_event c cl p o).
Qed.

Lemma state_event_caching_witness :
  lookup_session (lit "abc")
    (on_event 0%nat state_zero (run init [Connect (hs "abc" "publisher")]))
  = Some (Session JNull 1 0).
Proof.
  destruct (state_event_caching (run init [Connect (hs "abc" "publisher")])
              0%nat (Closure (lit "abc") (lit "publisher") 0%nat) state_zero)
    as (o & Ho & H).
  - apply reachable_run, reachable_init.
  - vm_compute. reflexivity.
  - vm_compute. reflexivity.
  - vm_compute in Ho. injection Ho as <-. exact H.
Defined.

(** ** Roles *)

(** C5, as worded, fails: the role is trimmed before it is compared, so a
    padded role string is recorded as a publisher. *)
Lemma padded_role_is_publisher :
  ¬ role_as_supplied init (hs "abc" " publisher").
Proof.
  intros H. destruct H as (cl & Hc & Hiff).
  - vm_compute. discriminate.
  - vm_compute in Hc. injection Hc as <-.
    assert (hs "abc" " publisher" ≫= role = Some (lit "publisher")) as E.
    { apply Hiff. vm_compute. reflexivity. }
    vm_compute in E. discriminate E.
Qed.

(** C5, amended. For every handshake whose session identifier is
    non-empty after trimming, the socket is recorded as a publisher
    exactly when the supplied role, trimmed, equals [publisher]
    case-sensitively, and as a viewer for every other value, an absent
    role included; the counter of that role in the session grows by
    exactly one and the other counter keeps its value (both start at zero
    for a session created by the handshake). *)
Theorem role_normalization σ q :
  reachable σ → sid_of q ≠ [] →
  let before := session_or_new (sid_of q) σ in
  ∃ cl o', conns (on_connection q σ) !! next_id σ = Some cl
    ∧ cl_sid cl = sid_of q
    ∧ (is_publisher cl = true ↔ r_of q = lit "publisher")
    ∧ lookup_session (sid_of q) (on_connection q σ) = Some o'
    ∧ (publishers o', viewers o')
      = (if is_publisher cl
         then (publishers before + 1, viewers before)
         else (publishers before, viewers before + 1)).
Proof.
  intros R Hq before. pose proof (reachable_wf σ R) as W.
  exists (Closure (sid_of q) (r_of q) (session_addr (sid_of q) σ)),
    (arrive (r_of q) before).
  split; [|split; [|split; [|split]]].
  - rewrite on_connection_accepted by done. cbn. apply lookup_insert_eq.
  - done.
  - unfold is_publisher. cbn. apply bool_decide_eq_true.
  - by apply lookup_session_on_connection.
  - unfold is_publisher, arrive. cbn. by case_bool_decide.
Qed.

Lemma role_normalization_witness :
  ∃ cl o', conns (on_connection (hs "abc" "Publisher") published) !! 1%nat
           = Some cl
    ∧ is_publisher cl = false
    ∧ lookup_session (lit "abc") (on_connection (hs "abc" "Publisher") published)
      = Some o'
    ∧ (publishers o', viewers o') = (1, 1).
Proof.
  destruct (role_normalization published (hs "abc" "Publisher"))
    as (cl & o' & Hc & Hs & Hiff & Ho & Hn).
  - apply reachable_run, reachable_init.
  - vm_compute. discriminate.
  - exists cl, o'. split; [exact Hc|]. split; [|split; [exact Ho|]].
    + destruct (is_publisher cl); [|reflexivity].
      pose proof (proj1 Hiff eq_refl) as E. vm_compute in E. discriminate E.
    + destruct (is_publisher cl) eqn:E.
      * pose proof (proj1 Hiff eq_refl) as E'. vm_compute in E'.
        discriminate E'.
      * exact Hn.
Defined.

(** ** Rejected handshakes *)

(** Socket identifiers are never handed out twice. *)
Lemma closed_stays_closed c σ ops :
  wf σ → (c < next_id σ)%nat → conns σ !! c = None →
  conns (run σ ops) !! c = None.
Proof.
  revert σ. induction ops as [|o ops IH]; intros σ W Hlt Hc; [done|].
  rewrite run_cons. apply IH.
  - by apply wf_step.
  - pose proof (next_id_step σ o). lia.
  - rewrite conns_step by done. destruct o as [q|c' p|c'].
    + case_decide; [done|]. rewrite lookup_insert_ne; [done|lia].
    + done.
    + apply lookup_delete_None. by right.
Qed.

Lemma wf_run σ ops : wf σ → wf (run σ ops).
Proof.
  revert σ. induction ops as [|o ops IH]; intros σ W; [done|].
  rewrite run_cons. by apply IH, wf_step.
Qed.

(** C6. A handshake whose session identifier is empty after trimming
    (an absent identifier included) is closed by force and nothing else
    happens: the registry, the session objects, the set of sockets with
    handlers and the rooms are what they were, the only emission is the
    forced close, and in every continuation the socket has no handlers,
    is in no room, and an event arriving from it changes nothing. *)
Theorem rejected_handshake σ q :
  reachable σ → sid_of q = [] →
  let c := next_id σ in
  let σ' := on_connection q σ in
  sessions σ' = sessions σ ∧ heap σ' = heap σ ∧ conns σ' = conns σ
  ∧ rooms σ' = rooms σ ∧ log σ' = log σ ++ [ForceClose c]
  ∧ ∀ ops,
      conns (run σ' ops) !! c = None
      ∧ (∀ room, c ∉ members room (run σ' ops))
      ∧ ∀ p, on_event c p (run σ' ops) = run σ' ops.
Proof.
  intros R Hq c σ'. pose proof (reachable_wf σ R) as W.
  assert (wf σ') as W' by by apply wf_on_connection.
  pose proof (on_connection_rejected q σ Hq) as E. fold σ' in E.
  repeat split; try (by rewrite E).
  all: assert (conns (run σ' ops) !! c = None) as Hnone
    by (apply closed_stays_closed;
        [done | rewrite E; cbn; unfold c; lia
        |rewrite E; cbn; by apply conn_fresh]).
  - done.
  - intros room Hin.
    apply (wf_rooms _ (wf_run σ' ops W')) in Hin as (cl & Hc & _).
    congruence.
  - intros p. by apply on_event_no_handler.
Qed.

Lemma rejected_handshake_witness :
  let σ' := on_connection (Some (Query (Some (lit "  ")) (Some (lit "viewer"))))
              published in
  sessions σ' = sessions published
  ∧ log σ' = log published ++ [ForceClose 1%nat]
  ∧ on_event 1%nat state_score5 σ' = σ'.
Proof.
  destruct (rejected_handshake published
              (Some (Query (Some (lit "  ")) (Some (lit "viewer")))))
    as (Hs & _ & _ & _ & Hl & Hops).
  - apply reachable_run, reachable_init.
  - vm_compute. reflexivity.
  - split; [exact Hs|]. split; [exact Hl|].
    destruct (Hops []) as (_ & _ & He). exact (He state_score5).
Defined.

(** ** Malformed events *)

(** C7. An inbound payload that is null, absent, or a primitive leaves
    the whole server state as it was: no emission (so no broadcast and no
    error to the sender), no change to any session's [lastState] or
    counters, and the sender keeps its handlers. *)
Theorem malformed_event_dropped σ c p :
  unstructured p → on_event c p σ = σ.
Proof.
  intros H. apply on_event_dropped. unfold processed.
  destruct p as [| |b|x|s|l|l]; try done; cbn.
  - by destruct b.
  - by destruct x.
  - by destruct s.
Qed.

Lemma malformed_event_dropped_witness :
  on_event 0%nat (JStr (lit "state")) published = published
  ∧ on_event 0%nat JNull published = published.
Proof.
  split.
  - apply (malformed_event_dropped published 0%nat (JStr (lit "state"))).
    exact I.
  - apply (malformed_event_dropped published 0%nat JNull). exact I.
Defined.

(** ** Broadcast *)



(** ** Isolation of sessions *)




(** ** The cached state is null or truthy *)

(** C10. In every reachable state each session's [lastState] is [null]
    or truthy, so the truthiness test that guards the catch-up agrees
    with a test against [null]; a state event whose data field is falsy
    stores [null], after which a joiner of that session is sent no
    catch-up. *)
Theorem lastState_null_or_truthy σ :
  reachable σ →
  (∀ sid o, lookup_session sid σ = Some o →
     lastState o = JNull ∨ truthy (lastState o) = true)
  ∧ (∀ sid o, lookup_session sid σ = Some o →
       (truthy (lastState o) = true ↔ lastState o ≠ JNull))
  ∧ (∀ c cl p q,
       conns σ !! c = Some cl → processed p = true → is_state p = true →
       truthy (get p (lit "data")) = false → sid_of q = cl_sid cl →
       lastState <$> lookup_session (cl_sid cl) (on_event c p σ) = Some JNull
       ∧ log (on_connection q (on_event c p σ)) = log (on_event c p σ)).
Proof.
  intros R. pose proof (reachable_wf σ R) as W.
  assert (∀ sid o, lookup_session sid σ = Some o →
            lastState o = JNull ∨ truthy (lastState o) = true) as Hinv.
  { intros sid o Ho. apply lookup_session_heap in Ho as (a & _ & Hh).
    by apply (wf_state σ W a). }
  split; [done|]. split.
  - intros sid o Ho. destruct (Hinv sid o Ho) as [E|E]; rewrite E.
    + cbn. split; [done|]. by intros H.
    + split; [|done]. intros _ E'. rewrite E' in E. done.
  - intros c cl p q Hc Hp Hst Hf Hsid.
    destruct (owner_object c cl σ W Hc) as (o & Ho & Hl).
    assert (lookup_session (cl_sid cl) (on_event c p σ)
            = Some (set_lastState JNull o)) as Hev.
    { rewrite (lookup_session_on_event c cl p o) by done. rewrite Hst.
      unfold cached, Js.or. by rewrite Hf. }
    split; [by rewrite Hev|].
    rewrite log_on_connection.
    + unfold catch_up, session_or_new. rewrite Hsid, Hev. cbn.
      by rewrite app_nil_r.
    + by apply wf_on_event.
    + rewrite Hsid. by apply (live_sid_nonempty σ R c).
Qed.

Lemma lastState_null_or_truthy_witness :
  lastState <$> lookup_session (lit "abc") (on_event 0%nat state_zero published)
  = Some JNull
  ∧ log (on_connection (hs "abc" "viewer")
           (on_event 0%nat state_zero published))
    = log (on_event 0%nat state_zero published).
Proof.
  destruct (lastState_null_or_truthy published
              (reachable_run init _ reachable_init)) as (_ & _ & H).
  apply (H 0%nat (Closure (lit "abc") (lit "publisher") 0%nat) state_zero
           (hs "abc" "viewer")).
  - vm_compute. reflexivity.
  - vm_compute. reflexivity.
  - vm_compute. reflexivity.
  - vm_compute. reflexivity.
  - vm_compute. reflexivity.
Defined.

(** * Further properties of the relay and of the HTTP routes *)

Lemma closed_above σ c :
  reachable σ → (next_id σ ≤ c)%nat → conns σ !! c = None.
Proof.
  intros R Hle. destruct (conns σ !! c) eqn:E; [|done].
  assert (c < next_id σ)%nat by (apply (wf_ids σ (reachable_wf σ R)); eauto).
  lia.
Qed.
(** ** The registry *)

Lemma getSession_hit sid a σ :
  sessions σ !! sid = Some a → getSession sid σ = (a, σ).
Proof. intros H. unfold getSession. by rewrite H. Qed.

(** X1. [getSession] answers with the object stored under the key,
    creating [{lastState: null, publishers: 0, viewers: 0}] only when the
    key is new: afterwards the key is registered, a second call answers
    with the same reference and changes nothing, a registered key costs
    no change at all, and no other key's session is touched. *)
Theorem getSession_idempotent σ sid :
  reachable σ →
  let a := (getSession sid σ).1 in
  let σ' := (getSession sid σ).2 in
  sessions σ' !! sid = Some a
  ∧ lookup_session sid σ' = Some (session_or_new sid σ)
  ∧ getSession sid σ' = (a, σ')
  ∧ (is_Some (sessions σ !! sid) → σ' = σ)
  ∧ (∀ sid', sid' ≠ sid → lookup_session sid' σ' = lookup_session sid' σ).
Proof.
  intros R a σ'. pose proof (reachable_wf σ R) as W.
  assert (sessions σ' !! sid = Some a) as Hreg.
  { unfold a, σ', getSession.
    destruct (sessions σ !! sid) eqn:E; cbn; [done|apply lookup_insert_eq]. }
  split; [done|]. split; [|split; [|split]].
  - unfold a, σ', session_or_new, lookup_session, getSession in *.
    destruct (sessions σ !! sid) as [a0|] eqn:E; cbn in *.
    + rewrite E. cbn. destruct (wf_reg σ W _ _ E) as [o Ho]. by rewrite Ho.
    + rewrite lookup_insert_eq. cbn. by rewrite lookup_insert_eq.
  - by apply getSession_hit.
  - intros [a0 E]. unfold σ'. by rewrite (getSession_hit sid a0).
  - intros sid' Hne. unfold σ', lookup_session, getSession.
    destruct (sessions σ !! sid) as [a0|] eqn:E; cbn; [done|].
    rewrite lookup_insert_ne by done.
    destruct (sessions σ !! sid') as [a'|] eqn:E'; cbn; [|done].
    rewrite lookup_insert_ne; [done|]. intros Hfresh.
    apply (wf_reg σ W) in E'. rewrite <- Hfresh, (heap_fresh σ W) in E'.
    by destruct E'.
Qed.

Lemma getSession_idempotent_witness :
  lookup_session (lit "xyz") (getSession (lit "xyz") published).2
  = Some (Session JNull 0 0)
  ∧ lookup_session (lit "abc") (getSession (lit "xyz") published).2
    = lookup_session (lit "abc") published.
Proof.
  destruct (getSession_idempotent published (lit "xyz")
              (reachable_run init _ reachable_init))
    as (_ & Hnew & _ & _ & Hother).
  split; [exact Hnew|]. apply Hother. vm_compute. discriminate.
Defined.

(** ** Counters and live sockets *)

(** X2. In every reachable state the two counters of a registered
    session are the numbers of its live sockets by role: [publishers]
    counts the sockets whose handlers hold the role [publisher],
    [viewers] all its other sockets. *)
Theorem counters_count_live_sockets σ sid o :
  reachable σ → lookup_session sid σ = Some o →
  publishers o = Z.of_nat (size (attached sid true σ))
  ∧ viewers o = Z.of_nat (size (attached sid false σ)).
Proof. intros R. apply (wf_counts σ (reachable_wf σ R)). Qed.

Lemma counters_count_live_sockets_witness :
  1 = Z.of_nat (size (attached (lit "abc") true published))
  ∧ 0 = Z.of_nat (size (attached (lit "abc") false published)).
Proof.
  apply (counters_count_live_sockets published (lit "abc")
           (Session score5 1 0)).
  - apply reachable_run, reachable_init.
  - vm_compute. reflexivity.
Defined.

(** A registered session has a live socket. *)
Lemma session_has_live_socket σ sid :
  reachable σ → is_Some (sessions σ !! sid) →
  ∃ c cl, conns σ !! c = Some cl ∧ cl_sid cl = sid.
Proof.
  intros R Hreg. pose proof (reachable_wf σ R) as W.
  destruct (registered_session sid σ W Hreg) as [o Ho].
  pose proof (sessions_populated σ R sid o Ho) as Hne.
  destruct (wf_counts σ W sid o Ho) as [Hp Hv].
  unfold emptied in Hne. apply andb_false_iff in Hne.
  assert (∃ b, size (attached sid b σ) ≠ 0%nat) as [b Hb].
  { destruct Hne as [H|H]; apply Z.eqb_neq in H;
      [exists true|exists false]; lia. }
  apply map_size_ne_0_lookup in Hb as (c & cl & Hc).
  apply map_lookup_filter_Some in Hc as [Hc [Hs _]]. eauto.
Qed.

(** X3. A key is in the registry exactly when some live socket belongs
    to its session: sessions are created by the first socket and are
    gone with the last. *)
Theorem registered_iff_live σ sid :
  reachable σ →
  (is_Some (sessions σ !! sid)
   ↔ ∃ c cl, conns σ !! c = Some cl ∧ cl_sid cl = sid).
Proof.
  intros R. split; [by apply session_has_live_socket|].
  intros (c & cl & Hc & <-).
  rewrite (wf_owner σ (reachable_wf σ R) c cl Hc). eauto.
Qed.

Lemma registered_iff_live_witness :
  ∃ c cl, conns published !! c = Some cl ∧ cl_sid cl = lit "abc".
Proof.
  apply (registered_iff_live published (lit "abc")).
  - apply reachable_run, reachable_init.
  - vm_compute. eexists. reflexivity.
Defined.

(** X4. The disconnect handler never needs its safety nets: when a live
    socket disconnects, [getSession] finds the very object the socket's
    handlers captured at connect time (nothing is created), the counter
    of the socket's role is at least one, and the object is left with
    that counter lowered by exactly one, so [Math.max(0, ...)] never
    clamps; and the departure is silent, nothing is emitted. *)
Theorem disconnect_exact σ c cl :
  reachable σ → conns σ !! c = Some cl →
  ∃ o, getSession (cl_sid cl) σ = (cl_s cl, σ)
       ∧ heap σ !! cl_s cl = Some o
       ∧ (if is_publisher cl then 1 ≤ publishers o else 1 ≤ viewers o)
       ∧ heap (on_disconnect c σ) !! cl_s cl
         = Some (if is_publisher cl
                 then set_publishers (publishers o - 1) o
                 else set_viewers (viewers o - 1) o)
       ∧ log (on_disconnect c σ) = log σ.
Proof.
  intros R Hc. pose proof (reachable_wf σ R) as W.
  destruct (owner_object c cl σ W Hc) as (o & Ho & Hl).
  exists o. split; [apply getSession_hit, (wf_owner σ W c cl Hc)|].
  split; [done|].
  destruct (wf_counts σ W _ _ Hl) as [Hp Hv].
  assert (0 < size (attached (cl_sid cl) (is_publisher cl) σ))%nat as Hpos.
  { by apply (filter_size_pos _ _ c cl). }
  assert (if is_publisher cl then 1 ≤ publishers o else 1 ≤ viewers o) as H1.
  { destruct (is_publisher cl); lia. }
  split; [done|].
  rewrite (on_disconnect_live c cl o) by done. cbn. split; [|done].
  rewrite lookup_insert_eq. f_equal. unfold depart, is_publisher in *.
  destruct (bool_decide (cl_r cl = lit "publisher")); f_equal; lia.
Qed.

Lemma disconnect_exact_witness :
  heap (on_disconnect 0%nat published) !! 0%nat = Some (Session score5 0 0).
Proof.
  destruct (disconnect_exact published 0%nat
              (Closure (lit "abc") (lit "publisher") 0%nat))
    as (o & _ & Ho & _ & H & _).
  - apply reachable_run, reachable_init.
  - vm_compute. reflexivity.
  - vm_compute in Ho. injection Ho as <-. exact H.
Defined.

Lemma depart_arrive r o :
  0 ≤ publishers o → 0 ≤ viewers o → depart r (arrive r o) = o.
Proof.
  intros Hp Hv. destruct o as [ls p v]. unfold depart, arrive. cbn in *.
  case_bool_decide; cbn; unfold set_publishers, set_viewers; cbn;
    f_equal; lia.
Qed.

(** X5. A socket that connects and then disconnects leaves no trace in
    the relay: the registry, the live sockets, every session's object
    (cached state and counters) and every room's membership are what
    they were before the socket arrived; a session created by the
    handshake is removed again. *)
Theorem connect_disconnect_round_trip σ q :
  reachable σ → sid_of q ≠ [] →
  let σ2 := on_disconnect (next_id σ) (on_connection q σ) in
  sessions σ2 = sessions σ ∧ conns σ2 = conns σ
  ∧ (∀ sid, lookup_session sid σ2 = lookup_session sid σ)
  ∧ (∀ room, members room σ2 = members room σ).
Proof.
  intros R Hq σ2. pose proof (reachable_wf σ R) as W.
  assert (wf σ2) as W2 by by apply wf_on_disconnect, wf_on_connection.
  set (sid := sid_of q) in *. set (a := session_addr sid σ).
  set (o0 := session_or_new sid σ).
  set (cl := Closure sid (r_of q) a).
  assert (conns (on_connection q σ) !! next_id σ = Some cl) as Hc.
  { rewrite on_connection_accepted by done. cbn. apply lookup_insert_eq. }
  assert (heap (on_connection q σ) !! a = Some (arrive (r_of q) o0)) as Hh.
  { rewrite on_connection_accepted by done. cbn. apply lookup_insert_eq. }
  destruct (session_or_new_nonneg sid σ W) as [Hp Hv].
  pose proof (on_disconnect_live (next_id σ) cl _ (on_connection q σ)
                (wf_on_connection q σ W) Hc Hh) as E.
  fold σ2 in E. cbn [cl_sid cl_r cl_s cl] in E.
  rewrite depart_arrive in E by done.
  rewrite on_connection_accepted in E by done. cbn in E.
  fold sid a o0 in E.
  assert (sessions σ2 = sessions σ) as Hs.
  { rewrite E. cbn.
    destruct (session_cases sid σ W) as [(a' & o' & Es & Ho & Ea & Eo)
                                        |(Es & Ea & Eo & _)].
    - fold a in Ea. fold o0 in Eo. subst a' o'.
      assert (emptied o0 = false) as ->.
      { apply (sessions_populated σ R sid). unfold lookup_session.
        by rewrite Es. }
      by apply insert_id.
    - fold o0 in Eo. rewrite Eo. cbn.
      rewrite delete_insert_eq. by apply delete_id. }
  assert (conns σ2 = conns σ) as Hcs.
  { rewrite E. cbn. rewrite delete_insert_eq.
    apply delete_id, (conn_fresh σ W). }
  split; [done|]. split; [done|]. split.
  - intros sid'. unfold lookup_session. rewrite Hs.
    destruct (sessions σ !! sid') as [a'|] eqn:E'; cbn; [|done].
    rewrite E. cbn. rewrite insert_insert_eq.
    destruct (decide (a = a')) as [<-|Hne]; [|by rewrite lookup_insert_ne].
    rewrite lookup_insert_eq.
    destruct (session_cases sid σ W) as [(a' & o' & Es & Ho & Ea & Eo)
                                        |(Es & Ea & Eo & _)].
    + fold a in Ea. fold o0 in Eo. by subst a' o'.
    + fold a in Ea. apply (wf_reg σ W) in E'.
      rewrite Ea, (heap_fresh σ W) in E'. by destruct E'.
  - intros room. apply set_eq. intros c.
    rewrite (wf_rooms σ2 W2), (wf_rooms σ W), Hcs. done.
Qed.

Lemma connect_disconnect_round_trip_witness :
  sessions (on_disconnect 1%nat (on_connection (hs "xyz" "viewer") published))
  = sessions published
  ∧ conns (on_disconnect 1%nat (on_connection (hs "xyz" "viewer") published))
    = conns published.
Proof.
  destruct (connect_disconnect_round_trip published (hs "xyz" "viewer"))
    as (Hs & Hc & _).
  - apply reachable_run, reachable_init.
  - vm_compute. discriminate.
  - split; [exact Hs|exact Hc].
Defined.

(** X6. Eviction forgets the cached state: when the last live socket of
    a session disconnects, the key leaves the registry, and the next
    socket to join under that key is sent no catch-up and finds a fresh
    session, [lastState] null and only its own arrival counted. *)
Theorem eviction_forgets_state σ c cl q :
  reachable σ → conns σ !! c = Some cl →
  (∀ c' cl', conns σ !! c' = Some cl' → cl_sid cl' = cl_sid cl → c' = c) →
  sid_of q = cl_sid cl →
  let σ1 := on_disconnect c σ in
  sessions σ1 !! cl_sid cl = None
  ∧ log (on_connection q σ1) = log σ1
  ∧ lookup_session (cl_sid cl) (on_connection q σ1)
    = Some (arrive (r_of q) (Session JNull 0 0)).
Proof.
  intros R Hc Hlast Hq σ1. pose proof (reachable_wf σ R) as W.
  assert (wf σ1) as W1 by by apply wf_on_disconnect.
  assert (sessions σ1 !! cl_sid cl = None) as Hgone.
  { destruct (sessions σ1 !! cl_sid cl) as [a|] eqn:E; [|done]. exfalso.
    assert (reachable σ1) as R1 by apply (reachable_step σ (Disconnect c) R).
    destruct (session_has_live_socket σ1 (cl_sid cl) R1)
      as (c' & cl' & Hc' & Hs'); [eauto|].
    unfold σ1 in Hc'. pose proof (conns_step σ (Disconnect c) W) as Hcs.
    cbn in Hcs. rewrite Hcs in Hc'.
    apply lookup_delete_Some in Hc' as [Hne Hc'].
    by apply Hne, eq_sym, (Hlast c' cl'). }
  assert (sid_of q ≠ []) as Hne.
  { rewrite Hq. by apply (live_sid_nonempty σ R c). }
  assert (session_or_new (sid_of q) σ1 = Session JNull 0 0) as Hnew.
  { unfold session_or_new, lookup_session. by rewrite Hq, Hgone. }
  split; [done|]. split.
  - rewrite log_on_connection by done. unfold catch_up. rewrite Hnew. cbn.
    by rewrite app_nil_r.
  - rewrite <- Hq, lookup_session_on_connection by done. by rewrite Hnew.
Qed.

Lemma eviction_forgets_state_witness :
  sessions (on_disconnect 0%nat published) !! lit "abc" = None
  ∧ log (on_connection (hs "abc" "viewer") (on_disconnect 0%nat published))
    = log (on_disconnect 0%nat published).
Proof.
  destruct (eviction_forgets_state published 0%nat
              (Closure (lit "abc") (lit "publisher") 0%nat)
              (hs "abc" "viewer")) as (Hg & Hl & _).
  - apply reachable_run, reachable_init.
  - vm_compute. reflexivity.
  - intros c' cl' Hc' _. destruct c' as [|c']; [reflexivity|].
    exfalso. assert (conns published !! S c' = None) as E.
    { apply (closed_above published (S c')).
      - apply reachable_run, reachable_init.
      - vm_compute. lia. }
    rewrite E in Hc'. discriminate Hc'.
  - vm_compute. reflexivity.
  - split; [exact Hg|exact Hl].
Defined.

(** ** Rooms and emissions *)




(** X8. Everything the relay ever emits is of one of three kinds: a
    point-to-point [state] event with truthy data (a catch-up), a
    broadcast of a well-formed payload to a room with a non-empty name,
    or the forced close of a socket that never gets handlers.  The relay
    originates no other payload and never force-closes an accepted
    socket. *)
Theorem emission_discipline σ :
  reachable σ → Forall (disciplined σ) (log σ).
Proof.
  induction 1 as [|σ o R IH]; [constructor|].
  pose proof (reachable_wf σ R) as W.
  rewrite log_step by done. apply Forall_app. split.
  - pose proof (wf_log σ W) as Hb.
    induction IH as [|e l He _ IHl]; [constructor|].
    apply Forall_cons in Hb as [Hb1 Hb]. constructor; [|by apply IHl].
    destruct e as [c p|room ms p|c]; cbn in *; [done..|].
    rewrite conns_step by done. destruct o as [q|c' p|c'].
    + case_decide; [done|]. rewrite lookup_insert_ne; [done|lia].
    + done.
    + apply lookup_delete_None. by right.
  - destruct o as [q|c p|c]; cbn.
    + case_decide as Hq.
      * repeat constructor. cbn. rewrite on_connection_rejected by done.
        apply (conn_fresh σ W).
      * unfold catch_up. destruct (truthy _) eqn:Ht; repeat constructor.
        cbn. eauto.
    + destruct (conns σ !! c) as [cl|] eqn:Hc; [|constructor].
      destruct (processed p) eqn:Hp; repeat constructor; [done|].
      by apply (live_sid_nonempty σ R c).
    + constructor.
Qed.

Lemma emission_discipline_witness :
  Forall (disciplined published) (log published).
Proof.
  apply (emission_discipline published).
  apply reachable_run, reachable_init.
Defined.

(** ** Trimming *)

Lemma trim_start_clean s : starts_clean (trim_start s).
Proof.
  induction s as [|c s IH]; cbn; [done|].
  destruct (is_white_space c) eqn:E; [done|]. exact E.
Qed.

Lemma trim_start_id s : starts_clean s → trim_start s = s.
Proof. destruct s as [|c s]; cbn; [done|]. by intros ->. Qed.

Lemma trim_start_suffix s :
  ∃ w, s = w ++ trim_start s.
Proof.
  induction s as [|c s [w IH]]; cbn; [by exists []|].
  destruct (is_white_space c).
  - exists (c :: w). cbn. by f_equal.
  - by exists [].
Qed.

Lemma trim_end_prefix s : ∃ w, s = trim_end s ++ w.
Proof.
  unfold trim_end. destruct (trim_start_suffix (rev s)) as [w Hw].
  exists (rev w). rewrite <- rev_app_distr, <- Hw. by rewrite rev_involutive.
Qed.

Lemma trim_end_id s : starts_clean (rev s) → trim_end s = s.
Proof.
  intros H. unfold trim_end. rewrite trim_start_id by done.
  apply rev_involutive.
Qed.

Lemma trim_id s : starts_clean s → starts_clean (rev s) → trim s = s.
Proof.
  intros H1 H2. unfold trim. rewrite trim_start_id by done.
  by apply trim_end_id.
Qed.

Lemma trim_clean s : starts_clean (trim s) ∧ starts_clean (rev (trim s)).
Proof.
  unfold trim. split.
  - pose proof (trim_start_clean s) as H.
    destruct (trim_end_prefix (trim_start s)) as [w Hw].
    destruct (trim_end (trim_start s)) as [|c u]; [done|].
    rewrite Hw in H. exact H.
  - unfold trim_end. rewrite rev_involutive. apply trim_start_clean.
Qed.

Lemma trim_idempotent s : trim (trim s) = trim s.
Proof. destruct (trim_clean s). by apply trim_id. Qed.

Lemma trim_no_white_space s :
  Forall (λ c, is_white_space c = false) s → trim s = s.
Proof.
  intros H. apply trim_id.
  - destruct s; [done|]. by apply Forall_cons in H as [H _].
  - apply Forall_rev in H. destruct (rev s); [done|].
    by apply Forall_cons in H as [H _].
Qed.

(** Live sockets belong to sessions whose key is a trimmed string. *)
Lemma live_sid_trimmed σ :
  reachable σ → ∀ c cl, conns σ !! c = Some cl → trim (cl_sid cl) = cl_sid cl.
Proof.
  induction 1 as [|σ o R IH]; intros c cl.
  - cbn. by rewrite lookup_empty.
  - rewrite conns_step by by apply reachable_wf.
    destruct o as [q|c' p|c'].
    + case_decide; [apply IH|].
      intros [[_ <-]|[_ Hc]]%lookup_insert_Some; [|by eapply IH].
      cbn. apply trim_idempotent.
    + apply IH.
    + intros [_ Hc]%lookup_delete_Some. by eapply IH.
Qed.

(** X9. Registry keys are normalised: every key in the registry is
    non-empty, starts and ends with a character that is not white space,
    and is a fixed point of the handshake's normalisation, so a client
    that presents a registered key, with or without surrounding white
    space, is attached to that very session. *)
Theorem registry_keys_trimmed σ sid :
  reachable σ → is_Some (sessions σ !! sid) →
  sid ≠ [] ∧ starts_clean sid ∧ starts_clean (rev sid)
  ∧ ∀ pre post r,
      Forall (λ c, is_white_space c = true) pre →
      Forall (λ c, is_white_space c = true) post →
      sid_of (Some (Query (Some (pre ++ sid ++ post)) r)) = sid.
Proof.
  intros R Hreg.
  destruct (session_has_live_socket σ sid R Hreg) as (c & cl & Hc & <-).
  pose proof (live_sid_nonempty σ R c cl Hc) as Hne.
  pose proof (live_sid_trimmed σ R c cl Hc) as Ht.
  destruct (trim_clean (cl_sid cl)) as [H1 H2]. rewrite Ht in H1, H2.
  split; [done|]. split; [done|]. split; [done|].
  intros pre post r Hpre Hpost.
  change (sid_of (Some (Query (Some (pre ++ cl_sid cl ++ post)) r)))
    with (trim (String_or_empty (Some (pre ++ cl_sid cl ++ post)))).
  assert (String_or_empty (Some (pre ++ cl_sid cl ++ post))
          = pre ++ cl_sid cl ++ post) as ->.
  { cbn. by destruct (pre ++ cl_sid cl ++ post). }
  assert (∀ w s, Forall (λ c, is_white_space c = true) w →
            trim_start (w ++ s) = trim_start s) as Hws.
  { intros w s Hw. induction Hw as [|x w Hx _ IHw]; cbn; [done|].
    by rewrite Hx. }
  unfold trim. rewrite Hws by done.
  rewrite (trim_start_id (cl_sid cl ++ post)).
  2:{ destruct (cl_sid cl); [done|exact H1]. }
  unfold trim_end. rewrite rev_app_distr, Hws by by apply Forall_rev.
  rewrite trim_start_id by done. apply rev_involutive.
Qed.

Lemma registry_keys_trimmed_witness :
  sid_of (Some (Query (Some (lit "  " ++ lit "abc" ++ lit " ")) None))
  = lit "abc".
Proof.
  destruct (registry_keys_trimmed published (lit "abc")) as (_ & _ & _ & H).
  - apply reachable_run, reachable_init.
  - vm_compute. eexists. reflexivity.
  - apply H.
    + vm_compute. repeat constructor.
    + vm_compute. repeat constructor.
Defined.

(** ** HTTP routes *)

Ltac cmp_N c :=
  repeat match goal with
  | |- context [(c =? ?k)%N] => rewrite (proj2 (N.eqb_neq c k)) by lia
  | |- context [(?k <=? c)%N] =>
      first [rewrite (proj2 (N.leb_le k c)) by lia
            |rewrite (proj2 (N.leb_gt k c)) by lia]
  | |- context [(c <=? ?k)%N] =>
      first [rewrite (proj2 (N.leb_le c k)) by lia
            |rewrite (proj2 (N.leb_gt c k)) by lia]
  | |- context [(c <? ?k)%N] =>
      first [rewrite (proj2 (N.ltb_lt c k)) by lia
            |rewrite (proj2 (N.ltb_ge c k)) by lia]
  end.

Lemma is_hex_range c :
  is_hex c = true → (48 ≤ c ≤ 57 ∨ 97 ≤ c ≤ 102)%N.
Proof.
  unfold is_hex. rewrite orb_true_iff, !andb_true_iff, !N.leb_le. lia.
Qed.

Lemma hex_not_white_space c : is_hex c = true → is_white_space c = false.
Proof.
  intros H%is_hex_range. unfold is_white_space. cmp_N c. reflexivity.
Qed.

Lemma hex_plain c : is_hex c = true → plain c = true.
Proof.
  intros H%is_hex_range.
  unfold plain, is_high_surrogate, is_low_surrogate. cmp_N c. reflexivity.
Qed.

Lemma quote_unit_plain c : plain c = true → quote_unit c = [c].
Proof.
  unfold plain. rewrite !andb_true_iff, !negb_true_iff, N.leb_le.
  intros ((((H32 & H34) & H92) & Hh) & Hl).
  apply N.eqb_neq in H34, H92.
  unfold quote_unit. rewrite Hh, Hl. cmp_N c. reflexivity.
Qed.

Lemma quote_units_plain s :
  Forall (λ c, plain c = true) s → quote_units s = s.
Proof.
  induction 1 as [|c s Hc Hs IH]; [done|].
  assert (is_high_surrogate c = false) as Hh.
  { unfold plain in Hc. rewrite !andb_true_iff, !negb_true_iff in Hc. tauto. }
  cbn [quote_units]. destruct s as [|d s'].
  - by apply quote_unit_plain.
  - rewrite Hh. cbn [andb]. rewrite IH. by rewrite quote_unit_plain.
Qed.

Lemma overlay_served param :
  trim (String_or_empty param) ≠ [] →
  overlay param
  = Text 200 (overlay_before
              ++ JSON_stringify (trim (String_or_empty param))
              ++ overlay_after).
Proof. intros H. unfold overlay. by rewrite bool_decide_eq_false_2. Qed.

(** X10. The overlay route and the socket handshake validate the session
    identifier alike: [GET /overlay/:sessionId] answers 400 with
    [Missing sessionId] exactly for the identifiers whose handshake the
    relay closes by force, and serves the page exactly for those whose
    handshake gets handlers. *)
Theorem overlay_agrees_with_handshake σ param r :
  reachable σ →
  (overlay param = Text 400 (lit "Missing sessionId")
   ↔ log (on_connection (Some (Query param r)) σ)
     = log σ ++ [ForceClose (next_id σ)])
  ∧ (overlay param
     = Text 200 (overlay_before
                 ++ JSON_stringify (trim (String_or_empty param))
                 ++ overlay_after)
     ↔ is_Some (conns (on_connection (Some (Query param r)) σ)
                  !! next_id σ)).
Proof.
  intros R. pose proof (reachable_wf σ R) as W.
  set (q := Some (Query param r)).
  assert (sid_of q = trim (String_or_empty param)) as Hsid by reflexivity.
  destruct (decide (sid_of q = [])) as [He|Hne].
  - rewrite on_connection_rejected by done. cbn.
    unfold overlay. rewrite <- Hsid, bool_decide_eq_true_2 by done.
    split; [done|]. split; [done|]. rewrite (conn_fresh σ W).
    by intros [? ?].
  - rewrite log_on_connection, on_connection_accepted by done. cbn.
    rewrite lookup_insert_eq, overlay_served by by rewrite <- Hsid.
    split; [|by eauto]. split; [done|].
    intros H%app_inv_head. unfold catch_up in H.
    by destruct (truthy _).
Qed.

Lemma overlay_agrees_with_handshake_witness :
  overlay (Some (lit "  ")) = Text 400 (lit "Missing sessionId").
Proof.
  apply (overlay_agrees_with_handshake published (Some (lit "  "))
           (Some (lit "viewer"))).
  - apply reachable_run, reachable_init.
  - vm_compute. reflexivity.
Defined.

Lemma remove_dashes_hex u :
  Forall (λ c, c = 45%N ∨ is_hex c = true) u →
  Forall (λ c, is_hex c = true) (remove_dashes u).
Proof.
  unfold remove_dashes. induction 1 as [|c u Hc _ IH]; [constructor|].
  rewrite filter_cons. case_decide; [|done].
  constructor; [|done]. by destruct Hc.
Qed.

(** X11. The identifiers [POST /api/session] hands out are usable as
    they are: for a UUID made of hexadecimal digits and dashes with at
    least twelve digits, the identifier is twelve hexadecimal digits,
    the handshake takes it as the session key unchanged, and the overlay
    route serves the page with the identifier quoted verbatim in its
    script. *)
Theorem issued_id_is_accepted uuid :
  Forall (λ c, c = 45%N ∨ is_hex c = true) uuid →
  (12 ≤ length (remove_dashes uuid))%nat →
  let id := api_session_id uuid in
  length id = 12%nat
  ∧ Forall (λ c, is_hex c = true) id
  ∧ (∀ r, sid_of (Some (Query (Some id) r)) = id)
  ∧ overlay (Some id)
    = Text 200 (overlay_before ++ dq ++ id ++ dq ++ overlay_after).
Proof.
  intros Hu Hlen id.
  assert (length id = 12%nat) as Hl.
  { unfold id, api_session_id, slice0. rewrite length_take. lia. }
  assert (Forall (λ c, is_hex c = true) id) as Hhex.
  { unfold id, api_session_id, slice0. apply Forall_take.
    by apply remove_dashes_hex. }
  assert (id ≠ []) as Hne by (intros E; by rewrite E in Hl).
  assert (String_or_empty (Some id) = id) as Hs by by destruct id.
  assert (trim id = id) as Ht.
  { apply trim_no_white_space. eapply Forall_impl; [done|].
    apply hex_not_white_space. }
  split; [done|]. split; [done|]. split.
  - intros r. unfold sid_of. cbn [mbind option_bind sessionId].
    by rewrite Hs.
  - rewrite overlay_served; rewrite Hs, Ht; [|done].
    unfold JSON_stringify. rewrite quote_units_plain.
    + unfold dq. by rewrite <- !app_assoc.
    + eapply Forall_impl; [done|]. apply hex_plain.
Qed.

Lemma issued_id_is_accepted_witness :
  api_session_id (lit "123e4567-e89b-42d3-a456-426614174000")
  = lit "123e4567e89b"
  ∧ sid_of (Some (Query (Some (lit "123e4567e89b")) None))
    = lit "123e4567e89b".
Proof.
  split; [vm_compute; reflexivity|].
  destruct (issued_id_is_accepted
              (lit "123e4567-e89b-42d3-a456-426614174000"))
    as (_ & _ & H & _).
  - vm_compute.
    repeat (constructor; [first [left; reflexivity | right; reflexivity]|]).
    constructor.
  - vm_compute. lia.
  - apply (H None).
Defined.

(** X12. [JSON.stringify] copies every character that is neither a
    control character, a double quote, a backslash nor a surrogate, so
    an identifier made of such characters stands in the served page
    exactly as it was given (trimmed), between two double quotes;
    characters such as [<], [>], [/] and [&] are among those copied. *)
Theorem overlay_embeds_plain_id param :
  trim (String_or_empty param) ≠ [] →
  Forall (λ c, plain c = true) (trim (String_or_empty param)) →
  JSON_stringify (trim (String_or_empty param))
  = dq ++ trim (String_or_empty param) ++ dq
  ∧ overlay param
    = Text 200 (overlay_before ++ dq ++ trim (String_or_empty param) ++ dq
                ++ overlay_after).
Proof.
  intros Hne Hp.
  assert (JSON_stringify (trim (String_or_empty param))
          = dq ++ trim (String_or_empty param) ++ dq) as E.
  { unfold JSON_stringify. by rewrite quote_units_plain. }
  split; [done|]. rewrite overlay_served by done. rewrite E.
  unfold dq. by rewrite <- !app_assoc.
Qed.

Lemma overlay_embeds_plain_id_witness :
  overlay (Some (lit " </script> "))
  = Text 200 (overlay_before ++ dq ++ lit "</script>" ++ dq ++ overlay_after).
Proof.
  apply (overlay_embeds_plain_id (Some (lit " </script> "))).
  - vm_compute. discriminate.
  - vm_compute. repeat constructor.
Defined.



(** ** Events *)

(** X14. An event never changes who is connected: whatever the payload
    and whoever the sender, the registry, the live sockets, the rooms
    and both counters of every session are the same after the event
    handler as before; only [lastState] and the emissions can differ. *)
Theorem event_preserves_membership σ c p :
  let σ' := on_event c p σ in
  sessions σ' = sessions σ ∧ conns σ' = conns σ ∧ rooms σ' = rooms σ
  ∧ ∀ sid,
      publishers <$> lookup_session sid σ' = publishers <$> lookup_session sid σ
      ∧ viewers <$> lookup_session sid σ' = viewers <$> lookup_session sid σ.
Proof.
  intros σ'. unfold σ'.
  destruct (conns σ !! c) as [cl|] eqn:Hc.
  2:{ by rewrite on_event_no_handler. }
  destruct (processed p) eqn:Hp.
  2:{ by rewrite on_event_dropped. }
  rewrite (on_event_processed c cl) by done. cbn.
  split; [done|]. split; [done|]. split; [done|].
  intros sid. unfold lookup_session. cbn.
  destruct (sessions σ !! sid) as [a|]; cbn; [|done].
  destruct (is_state p); [|done].
  rewrite lookup_alter. case_decide; [|done].
  subst a. by destruct (heap σ !! cl_s cl).
Qed.

(** X15. The cache round-trips any truthy state: after a well-formed
    [state] event whose data field is truthy, a socket that joins the
    session later, with no further state event processed in the session
    and no eviction in between, is sent [{type: "state", data}] with
    that data field and nothing else of the event; so the latest state
    event decides the catch-up. *)
Theorem cached_state_round_trip σ c cl p ops q :
  reachable σ → conns σ !! c = Some cl →
  processed p = true → is_state p = true →
  truthy (get p (lit "data")) = true →
  quiet (cl_sid cl) (on_event c p σ) ops = true →
  sid_of q = cl_sid cl →
  let σ1 := run (on_event c p σ) ops in
  log (on_connection q σ1)
  = log σ1 ++ [Direct (next_id σ1) (state_event (get p (lit "data")))].
Proof.
  intros R Hc Hp Hst Ht Hq Hsid σ1.
  pose proof (reachable_wf σ R) as W.
  destruct (owner_object c cl σ W Hc) as (o & Ho & Hl).
  assert (lookup_session (cl_sid cl) (on_event c p σ)
          = Some (set_lastState (get p (lit "data")) o)) as Hev.
  { rewrite (lookup_session_on_event c cl p o) by done. rewrite Hst.
    unfold cached, Js.or. by rewrite Ht. }
  destruct (quiet_run _ _ ops _ (wf_on_event c p σ W) Hev Hq)
    as (s' & Hs' & E). cbn in E. fold σ1 in Hs'.
  assert (wf σ1) as W1 by by apply wf_run, wf_on_event.
  assert (sid_of q ≠ []) as Hne.
  { rewrite Hsid. by apply (live_sid_nonempty σ R c). }
  rewrite log_on_connection by done.
  unfold catch_up, session_or_new. rewrite Hsid, Hs'. cbn.
  by rewrite E, Ht.
Qed.

Lemma cached_state_round_trip_witness :
  log (on_connection (hs "abc" "viewer")
         (run published [Event 0%nat (state_event (JStr (lit "live")));
                         Event 0%nat (JObj [(lit "type", JStr (lit "emoji"))])]))
  = log (run published [Event 0%nat (state_event (JStr (lit "live")));
                        Event 0%nat (JObj [(lit "type", JStr (lit "emoji"))])])
    ++ [Direct 1%nat (state_event (JStr (lit "live")))].
Proof.
  apply (cached_state_round_trip published 0%nat
           (Closure (lit "abc") (lit "publisher") 0%nat)
           (state_event (JStr (lit "live")))
           [Event 0%nat (JObj [(lit "type", JStr (lit "emoji"))])]
           (hs "abc" "viewer")).
  - apply reachable_run, reachable_init.
  - vm_compute. reflexivity.
  - vm_compute. reflexivity.
  - vm_compute. reflexivity.
  - vm_compute. reflexivity.
  - vm_compute. reflexivity.
  - vm_compute. reflexivity.
Defined.

(** X16. Roles are not enforced on events: an event has the same effect
    whichever live socket of the session sends it, publisher or viewer;
    the whole server state after the handler is the same. *)
Theorem event_ignores_role σ c1 cl1 c2 cl2 p :
  reachable σ → conns σ !! c1 = Some cl1 → conns σ !! c2 = Some cl2 →
  cl_sid cl1 = cl_sid cl2 →
  on_event c1 p σ = on_event c2 p σ.
Proof.
  intros R H1 H2 Hs. pose proof (reachable_wf σ R) as W.
  destruct (processed p) eqn:Hp.
  2:{ by rewrite !on_event_dropped. }
  rewrite (on_event_processed c1 cl1), (on_event_processed c2 cl2) by done.
  assert (cl_s cl1 = cl_s cl2) as ->.
  { pose proof (wf_owner σ W c1 cl1 H1) as E1.
    pose proof (wf_owner σ W c2 cl2 H2) as E2. congruence. }
  by rewrite Hs.
Qed.

Lemma event_ignores_role_witness :
  on_event 0%nat state_zero (on_connection (hs "abc" "viewer") published)
  = on_event 1%nat state_zero (on_connection (hs "abc" "viewer") published).
Proof.
  apply (event_ignores_role
           (run init [Connect (hs "abc" "publisher");
                      Event 0%nat state_score5; Connect (hs "abc" "viewer")])
           0%nat (Closure (lit "abc") (lit "publisher") 0%nat)
           1%nat (Closure (lit "abc") (lit "viewer") 0%nat)).
  - apply reachable_run, reachable_init.
  - vm_compute. reflexivity.
  - vm_compute. reflexivity.
  - reflexivity.
Defined.
